(** * service/postgres/backup.go: the streaming backup pipeline

    [Backup] takes the process-wide postgres mutex, exports the binding's
    credentials as PG* environment variables, starts pg_dump / pg_dumpall,
    launches a goroutine that gzips the dump's standard output and uploads
    it to S3, waits for the dump to exit and then for the upload.

    The embedding is a small-step interleaving semantics: every call of
    [Backup] is a [run] made of four threads of control (the calling
    goroutine, the upload goroutine, the copy goroutine it spawns, and the
    external dump process); any number of runs share the mutex, the host
    environment, the log and a logical clock.  A schedule is a list of
    events and [exec] runs it, so every statement below can be evaluated
    on a concrete schedule. *)

From Stdlib Require Import ZArith Lia Ascii String.
From stdpp Require Import base option list strings gmap.

Local Open Scope Z_scope.

(** ** The parts of Go's standard library that [Backup] relies on *)

Module Go.

(** [error] values.  The two sentinels of package context are compared by
    identity in the source ([ctx.Err() == context.DeadlineExceeded]); any
    other error is known by its text only. *)
Inductive error :=
| context_Canceled
| context_DeadlineExceeded
| errorString (msg : string).

#[global] Instance error_eq_dec : EqDecision error.
Proof. solve_decision. Defined.

(** The [Error()] method. *)
Definition Error (e : error) : string :=
  match e with
  | context_Canceled => "context canceled"
  | context_DeadlineExceeded => "context deadline exceeded"
  | errorString msg => msg
  end.

(** [fmt.Errorf(prefix + "%v", e)] *)
Definition Errorf (prefix : string) (e : error) : error :=
  errorString (prefix +:+ Error e).

(** A context built by [context.WithDeadline] / [WithTimeout] / [WithCancel]:
    it is done at its deadline, or when its owner cancels it, whichever
    comes first, and [Err] never changes afterwards. *)
Record Context := {
  deadline : option Z;
  canceled_at : option Z
}.

Definition Err (ctx : Context) (now : Z) : option error :=
  match deadline ctx, canceled_at ctx with
  | Some d, Some c =>
      if d <=? c
      then (if d <=? now then Some context_DeadlineExceeded else None)
      else (if c <=? now then Some context_Canceled else None)
  | Some d, None => if d <=? now then Some context_DeadlineExceeded else None
  | None, Some c => if c <=? now then Some context_Canceled else None
  | None, None => None
  end.

Definition CR : ascii := "013"%char.
Definition LF : ascii := "010"%char.
Definition NUL : ascii := "000"%char.
Definition CRLF : string := String CR (String LF EmptyString).

(** [strings.ContainsRune] on single-byte runes. *)
Fixpoint ContainsByte (s : string) (c : ascii) : bool :=
  match s with
  | EmptyString => false
  | String a s' => if Ascii.eqb a c then true else ContainsByte s' c
  end.

(** [strings.TrimRight(s, cutset)]: drops bytes from the end of [s] for
    as long as the last one occurs in [cutset]. *)
Fixpoint TrimRight (s cutset : string) : string :=
  match s with
  | EmptyString => EmptyString
  | String a s' =>
      match TrimRight s' cutset with
      | EmptyString =>
          if ContainsByte cutset a then EmptyString else String a EmptyString
      | t => String a t
      end
  end.

(** [strings.Join(elems, sep)] *)
Fixpoint Join (elems : list string) (sep : string) : string :=
  match elems with
  | [] => ""
  | [a] => a
  | a :: rest => a +:+ sep +:+ Join rest sep
  end.

(** [strings.HasPrefix] and [strings.Contains]. *)
Fixpoint HasPrefix (s prefix : string) : bool :=
  match prefix, s with
  | EmptyString, _ => true
  | String p prefix', String a s' => Ascii.eqb a p && HasPrefix s' prefix'
  | String _ _, EmptyString => false
  end.

Fixpoint Contains (s substr : string) : bool :=
  HasPrefix s substr ||
  match s with
  | EmptyString => false
  | String _ s' => Contains s' substr
  end.

(** [os.Setenv(key, value)]: the process-wide environment is updated
    unless the key is empty or holds '=' or NUL, or the value holds NUL,
    in which case EINVAL is returned and nothing changes. *)
Definition Setenv (key value : string) (environ : gmap string string)
  : gmap string string * option error :=
  if (String.eqb key "" || ContainsByte key "="%char || ContainsByte key NUL
      || ContainsByte value NUL)%bool
  then (environ, Some (errorString "setenv: invalid argument"))
  else (<[key := value]> environ, None).

End Go.

Import Go.

(** ** github.com/cloudfoundry-community/go-cfenv *)

Module cfenv.

(** The values a credentials map ([map[string]interface{}]) can hold once
    decoded from VCAP_SERVICES. *)
Inductive value :=
| VString (s : string)
| VNumber (n : Z)
| VBool (b : bool)
| VNull.

Record Service := {
  Name : string;
  Label : string;
  Credentials : gmap string value
}.

(** [func (s *Service) CredentialString(key string) (string, bool)]: the
    type assertion [s.Credentials[key].(string)]. *)
Definition CredentialString (s : Service) (key : string) : string * bool :=
  match Credentials s !! key with
  | Some (VString v) => (v, true)
  | _ => ("", false)
  end.

End cfenv.

(** ** package postgres: the state of one call of [Backup] *)

(** Arguments of the call ([s3] is the client whose [UploadWithContext] is
    an outcome of the [World] below). *)
Record Request := {
  ctx : Context;
  binding : cfenv.Service;
  filename : string
}.

(** What the operations outside this file answer during one call. *)
Record World := {
  StdoutPipe_err : option error;          (* cmd.StdoutPipe() *)
  Start_err : option error;               (* cmd.Start() *)
  Wait_err : option error;                (* cmd.Wait() *)
  errBuf : string;                        (* errBuf.String() once Wait returned *)
  Copy_result : Z * option error;         (* io.Copy(gw, outPipe) *)
  UploadWithContext_err : bool -> option error
    (* s3.UploadWithContext, given whether uploadCtx was canceled meanwhile *)
}.

(** How [Backup] came to return: one constructor per return statement,
    named after the error taxonomy, carrying the returned value. *)
Inductive outcome :=
| PipeError (e : error)          (* line 58 *)
| InvocationError (e : error)    (* line 68 *)
| DeadlineExceeded (e : error)   (* line 99 *)
| DumpFailed (e : error)         (* line 103 *)
| Finished (e : option error).   (* line 107 *)

(** The [error] the caller receives. *)
Definition returned (o : outcome) : option error :=
  match o with
  | PipeError e | InvocationError e | DeadlineExceeded e | DumpFailed e => Some e
  | Finished e => e
  end.

(** Calls registered with [defer], most recent first. *)
Inductive deferred_call :=
| pgMutex_Unlock      (* line 26 *)
| outPipe_Close       (* line 60 *)
| uploadCancel.       (* line 73 *)

#[global] Instance deferred_call_eq_dec : EqDecision deferred_call.
Proof. solve_decision. Defined.

(** Control points of the calling goroutine, by source line. *)
Inductive main_pc :=
| L25_Lock | L28_Setenv | L40_Command | L66_Start | L74_Go
| L96_Wait | L106_Wait | L107_Return | Returning | Done.

(** Control points of the goroutine of line 74. *)
Inductive chain_pc :=
| C_None | C76_Add | C79_Gzip | C83_Go | C89_Upload | C90_Uploading
| C75_Done | C_Exited.

(** Control points of the goroutine of line 83. *)
Inductive copier_pc :=
| K_None | K86_Copy | K85_gw_Close | K84_pw_Close | K_Exited.

(** The dump process behind [cmd]. *)
Inductive process := NotStarted | Running | Exited.

#[global] Instance process_eq_dec : EqDecision process.
Proof. solve_decision. Defined.

(** The header fields of a [gzip.Writer] that the code sets. *)
Record gzip_Writer := { gz_Name : string; gz_ModTime : Z }.

(** One call of [s3.UploadWithContext(uploadCtx, objectPath, pr, size)]. *)
Record upload_call := { objectPath : string; size : Z }.

(** Calls of the log package, with their formatted message. *)
Inductive log_call :=
| log_Debugf (msg : string)
| log_Errorf (msg : string)
| log_Errorln (msg : string).

Record run := mkRun {
  req : Request;
  world : World;
  pc : main_pc;
  deferred : list deferred_call;
  err : option error;          (* the variable of line 55, assigned on line 90 *)
  result : option outcome;
  proc : process;
  child : option (list string * gmap string string);  (* argv and environment *)
  outPipe_closed : bool;
  uploadCtx_done : bool;
  uploadWait : Z;
  chain : chain_pc;
  gw : option gzip_Writer;
  uploads : list upload_call;
  copier : copier_pc
}.

Definition set_pc v r := mkRun (req r) (world r) v (deferred r) (err r) (result r) (proc r) (child r) (outPipe_closed r) (uploadCtx_done r) (uploadWait r) (chain r) (gw r) (uploads r) (copier r).
Definition set_deferred v r := mkRun (req r) (world r) (pc r) v (err r) (result r) (proc r) (child r) (outPipe_closed r) (uploadCtx_done r) (uploadWait r) (chain r) (gw r) (uploads r) (copier r).
Definition set_err v r := mkRun (req r) (world r) (pc r) (deferred r) v (result r) (proc r) (child r) (outPipe_closed r) (uploadCtx_done r) (uploadWait r) (chain r) (gw r) (uploads r) (copier r).
Definition set_result v r := mkRun (req r) (world r) (pc r) (deferred r) (err r) v (proc r) (child r) (outPipe_closed r) (uploadCtx_done r) (uploadWait r) (chain r) (gw r) (uploads r) (copier r).
Definition set_proc v r := mkRun (req r) (world r) (pc r) (deferred r) (err r) (result r) v (child r) (outPipe_closed r) (uploadCtx_done r) (uploadWait r) (chain r) (gw r) (uploads r) (copier r).
Definition set_child v r := mkRun (req r) (world r) (pc r) (deferred r) (err r) (result r) (proc r) v (outPipe_closed r) (uploadCtx_done r) (uploadWait r) (chain r) (gw r) (uploads r) (copier r).
Definition set_outPipe_closed v r := mkRun (req r) (world r) (pc r) (deferred r) (err r) (result r) (proc r) (child r) v (uploadCtx_done r) (uploadWait r) (chain r) (gw r) (uploads r) (copier r).
Definition set_uploadCtx_done v r := mkRun (req r) (world r) (pc r) (deferred r) (err r) (result r) (proc r) (child r) (outPipe_closed r) v (uploadWait r) (chain r) (gw r) (uploads r) (copier r).
Definition set_uploadWait v r := mkRun (req r) (world r) (pc r) (deferred r) (err r) (result r) (proc r) (child r) (outPipe_closed r) (uploadCtx_done r) v (chain r) (gw r) (uploads r) (copier r).
Definition set_chain v r := mkRun (req r) (world r) (pc r) (deferred r) (err r) (result r) (proc r) (child r) (outPipe_closed r) (uploadCtx_done r) (uploadWait r) v (gw r) (uploads r) (copier r).
Definition set_gw v r := mkRun (req r) (world r) (pc r) (deferred r) (err r) (result r) (proc r) (child r) (outPipe_closed r) (uploadCtx_done r) (uploadWait r) (chain r) v (uploads r) (copier r).
Definition set_uploads v r := mkRun (req r) (world r) (pc r) (deferred r) (err r) (result r) (proc r) (child r) (outPipe_closed r) (uploadCtx_done r) (uploadWait r) (chain r) (gw r) v (copier r).
Definition set_copier v r := mkRun (req r) (world r) (pc r) (deferred r) (err r) (result r) (proc r) (child r) (outPipe_closed r) (uploadCtx_done r) (uploadWait r) (chain r) (gw r) (uploads r) v.

(** What all runs of the host process share. *)
Record shared := mkShared {
  clock : Z;
  pgMutex : bool;                       (* true while locked *)
  environ : gmap string string;         (* os.Environ() *)
  logs : list log_call                  (* oldest first *)
}.

Definition set_pgMutex v sh := mkShared (clock sh) v (environ sh) (logs sh).
Definition set_environ v sh := mkShared (clock sh) (pgMutex sh) v (logs sh).
Definition log (c : log_call) sh := mkShared (clock sh) (pgMutex sh) (environ sh) (logs sh ++ [c]).
Definition advance (d : N) sh := mkShared (clock sh + Z.of_N d) (pgMutex sh) (environ sh) (logs sh).

(** ** The body of [Backup] *)

(** Lines 28-32: failed lookups are dropped, the zero value is kept. *)
Definition credential (b : cfenv.Service) (key : string) : string :=
  (cfenv.CredentialString b key).1.

(** Lines 34-37. *)
Definition export_credentials (b : cfenv.Service) (env : gmap string string)
  : gmap string string :=
  let env := (Setenv "PGUSER" (credential b "username") env).1 in
  let env := (Setenv "PGPASSWORD" (credential b "password") env).1 in
  let env := (Setenv "PGHOST" (credential b "host") env).1 in
  (Setenv "PGPORT" (credential b "port") env).1.

(** Lines 40-49. *)
Definition dump_command (database : string) : list string :=
  let command := [] in
  let command :=
    if 0 <? Z.of_nat (String.length database)
    then ((command ++ ["pg_dump"]) ++ [database]) ++ ["-C"]
    else command ++ ["pg_dumpall"] in
  let command := command ++ ["-c"] in
  command ++ ["--no-password"].

(** Line 89. *)
Definition object_path (rq : Request) : string :=
  cfenv.Label (binding rq) +:+ "/" +:+ cfenv.Name (binding rq) +:+ "/" +:+ filename rq.

(** A [return] statement: the result is fixed, then the deferred calls run. *)
Definition return_ (o : outcome) (r : run) : run :=
  set_pc Returning (set_result (Some o) r).

Definition defer (d : deferred_call) (r : run) : run :=
  set_deferred (d :: deferred r) r.

Definition run_deferred (d : deferred_call) (sh : shared) (r : run) : shared * run :=
  match d with
  | pgMutex_Unlock => (set_pgMutex false sh, r)
  | outPipe_Close => (sh, set_outPipe_closed true r)
  | uploadCancel => (sh, set_uploadCtx_done true r)
  end.

(** [func Backup], one step of the calling goroutine at a time.  A step
    that cannot be taken yet (the mutex is held, the dump is still running,
    the wait group is not at zero) leaves everything as it is. *)
Definition Backup_step (sh : shared) (r : run) : shared * run :=
  match pc r with
  | L25_Lock =>                                            (* lines 25-26 *)
      if pgMutex sh then (sh, r)
      else (set_pgMutex true sh, set_pc L28_Setenv (defer pgMutex_Unlock r))
  | L28_Setenv =>                                          (* lines 28-37 *)
      (set_environ (export_credentials (binding (req r)) (environ sh)) sh,
       set_pc L40_Command r)
  | L40_Command =>                                         (* lines 40-60 *)
      let command := dump_command (credential (binding (req r)) "database") in
      let sh := log (log_Debugf ("executing postgres backup command: " +:+ Join command " ")) sh in
      match StdoutPipe_err (world r) with
      | Some e =>
          (log (log_Errorf ("could not get stdout pipe for postgres dump: " +:+ Error e)) sh,
           return_ (PipeError e) r)
      | None => (sh, set_pc L66_Start (defer outPipe_Close (set_err None r)))
      end
  | L66_Start =>                                           (* lines 63-73 *)
      match Start_err (world r) with
      | Some e =>
          (log (log_Errorf ("could not run postgres dump: " +:+ Error e)) sh,
           return_ (InvocationError e) r)
      | None =>
          let command := dump_command (credential (binding (req r)) "database") in
          (sh, set_pc L74_Go (defer uploadCancel
                 (set_child (Some (command, environ sh)) (set_proc Running r))))
      end
  | L74_Go => (sh, set_pc L96_Wait (set_chain C76_Add r)) (* line 74 *)
  | L96_Wait =>                                            (* lines 96-104 *)
      match proc r with
      | Exited =>
          match Wait_err (world r) with
          | Some e =>
              if decide (Err (ctx (req r)) (clock sh) = Some context_DeadlineExceeded)
              then (sh, return_ (DeadlineExceeded
                                   (Errorf "postgres dump: timeout: " context_DeadlineExceeded)) r)
              else (log (log_Errorln (TrimRight (errBuf (world r)) CRLF)) sh,
                    return_ (DumpFailed (Errorf "postgres dump: " e)) r)
          | None => (sh, set_pc L106_Wait r)
          end
      | _ => (sh, r)
      end
  | L106_Wait =>                                           (* line 106 *)
      if uploadWait r =? 0 then (sh, set_pc L107_Return r) else (sh, r)
  | L107_Return => (sh, return_ (Finished (err r)) r)      (* line 107 *)
  | Returning =>
      match deferred r with
      | d :: ds => run_deferred d sh (set_deferred ds r)
      | [] => (sh, set_pc Done r)
      end
  | Done => (sh, r)
  end.

(** The goroutine of lines 74-94. *)
Definition upload_step (sh : shared) (r : run) : shared * run :=
  match chain r with
  | C_None => (sh, r)
  | C76_Add =>                                             (* lines 75-76 *)
      (sh, set_chain C79_Gzip (set_uploadWait (uploadWait r + 1) r))
  | C79_Gzip =>                                            (* lines 79-82 *)
      (sh, set_chain C83_Go
             (set_gw (Some {| gz_Name := filename (req r); gz_ModTime := clock sh |}) r))
  | C83_Go => (sh, set_chain C89_Upload (set_copier K86_Copy r))   (* line 83 *)
  | C89_Upload =>                                          (* lines 89-90, the call *)
      (sh, set_chain C90_Uploading
             (set_uploads (uploads r ++ [{| objectPath := object_path (req r); size := -1 |}]) r))
  | C90_Uploading =>                                       (* lines 90-93, its return *)
      let e := UploadWithContext_err (world r) (uploadCtx_done r) in
      let sh :=
        match e with
        | Some e' =>
            log (log_Errorf ("could not upload service backup [" +:+ cfenv.Name (binding (req r))
                             +:+ "] to S3: " +:+ Error e')) sh
        | None => sh
        end in
      (sh, set_chain C75_Done (set_err e r))
  | C75_Done =>                                            (* deferred, line 75 *)
      (sh, set_chain C_Exited (set_uploadWait (uploadWait r - 1) r))
  | C_Exited => (sh, r)
  end.

(** The goroutine of lines 83-87: both results of [io.Copy] are dropped. *)
Definition copy_step (sh : shared) (r : run) : shared * run :=
  match copier r with
  | K_None => (sh, r)
  | K86_Copy => let '(_, _) := Copy_result (world r) in (sh, set_copier K85_gw_Close r)
  | K85_gw_Close => (sh, set_copier K84_pw_Close r)
  | K84_pw_Close => (sh, set_copier K_Exited r)
  | K_Exited => (sh, r)
  end.

(** The dump process: once started it exits at some point. *)
Definition dump_step (sh : shared) (r : run) : shared * run :=
  match proc r with
  | Running => (sh, set_proc Exited r)
  | _ => (sh, r)
  end.

Inductive thread := Main | Chain | Copier | Dump.

Definition step_thread (t : thread) : shared -> run -> shared * run :=
  match t with
  | Main => Backup_step
  | Chain => upload_step
  | Copier => copy_step
  | Dump => dump_step
  end.

(** ** Any number of concurrent calls *)

Record system := mkSystem { sh : shared; runs : list run }.

Inductive event :=
| Tick (d : N)                   (* time passes *)
| Step (i : nat) (t : thread).   (* thread [t] of call [i] takes its next step *)

Definition step (s : system) (e : event) : system :=
  match e with
  | Tick d => mkSystem (advance d (sh s)) (runs s)
  | Step i t =>
      match runs s !! i with
      | Some r =>
          let '(sh', r') := step_thread t (sh s) r in
          mkSystem sh' (<[i := r']> (runs s))
      | None => s
      end
  end.

Definition exec (sched : list event) (s : system) : system :=
  fold_left step sched s.

Definition new_run (call : Request * World) : run :=
  mkRun call.1 call.2 L25_Lock [] None None NotStarted None false false 0 C_None None [] K_None.

Definition init (now : Z) (env : gmap string string) (calls : list (Request * World)) : system :=
  mkSystem (mkShared now false env []) (new_run <$> calls).


(** ** Vocabulary of the statements *)

(** Every byte of [s] occurs in [cutset]. *)
Fixpoint all_in (cutset s : string) : bool :=
  match s with
  | EmptyString => true
  | String a s' => ContainsByte cutset a && all_in cutset s'
  end.

Fixpoint last_byte (s : string) : option ascii :=
  match s with
  | EmptyString => None
  | String a EmptyString => Some a
  | String _ s' => last_byte s'
  end.

(** A run holds the mutex from line 25 until its deferred [Unlock] ran. *)
Definition holds (r : run) : bool := bool_decide (pgMutex_Unlock ∈ deferred r).

(** The chain goroutine has executed [uploadWait.Add(1)]. *)
Definition registered (c : chain_pc) : bool :=
  match c with
  | C_None | C76_Add => false
  | _ => true
  end.

Definition the_upload (rq : Request) : upload_call :=
  {| objectPath := object_path rq; size := -1 |}.

(** *** What holds of every run at its control points *)

(** The calling goroutine: the pending deferred calls and the state of the
    dump process are determined by the control point. *)
Definition main_inv (r : run) : Prop :=
  match pc r with
  | L25_Lock =>
      deferred r = [] /\ proc r = NotStarted /\ result r = None
  | L28_Setenv | L40_Command =>
      deferred r = [pgMutex_Unlock] /\ proc r = NotStarted /\ result r = None
  | L66_Start =>
      deferred r = [outPipe_Close; pgMutex_Unlock] /\ proc r = NotStarted /\ result r = None
  | L74_Go | L96_Wait =>
      deferred r = [uploadCancel; outPipe_Close; pgMutex_Unlock]
      /\ proc r <> NotStarted /\ result r = None
  | L106_Wait | L107_Return =>
      deferred r = [uploadCancel; outPipe_Close; pgMutex_Unlock]
      /\ proc r = Exited /\ result r = None
  | Returning =>
      (deferred r = [uploadCancel; outPipe_Close; pgMutex_Unlock]
       \/ deferred r = [outPipe_Close; pgMutex_Unlock]
       \/ deferred r = [pgMutex_Unlock]
       \/ deferred r = [])
      /\ proc r <> Running /\ result r <> None
  | Done =>
      deferred r = [] /\ proc r <> Running /\ result r <> None
  end.

(** The chain goroutine: wait-group counter, encoder and upload call. *)
Definition chain_inv (r : run) : Prop :=
  match chain r with
  | C_None =>
      uploadWait r = 0 /\ gw r = None /\ uploads r = [] /\ err r = None
      /\ copier r = K_None
  | C76_Add =>
      uploadWait r = 0 /\ gw r = None /\ uploads r = [] /\ err r = None
      /\ copier r = K_None
  | C79_Gzip =>
      uploadWait r = 1 /\ gw r = None /\ uploads r = [] /\ err r = None
      /\ copier r = K_None
  | C83_Go =>
      uploadWait r = 1 /\ (exists t, gw r = Some {| gz_Name := filename (req r); gz_ModTime := t |})
      /\ uploads r = [] /\ err r = None /\ copier r = K_None
  | C89_Upload =>
      uploadWait r = 1 /\ (exists t, gw r = Some {| gz_Name := filename (req r); gz_ModTime := t |})
      /\ uploads r = [] /\ err r = None /\ copier r <> K_None
  | C90_Uploading =>
      uploadWait r = 1 /\ (exists t, gw r = Some {| gz_Name := filename (req r); gz_ModTime := t |})
      /\ uploads r = [the_upload (req r)] /\ err r = None /\ copier r <> K_None
  | C75_Done =>
      uploadWait r = 1 /\ (exists t, gw r = Some {| gz_Name := filename (req r); gz_ModTime := t |})
      /\ uploads r = [the_upload (req r)]
      /\ (exists c, err r = UploadWithContext_err (world r) c) /\ copier r <> K_None
  | C_Exited =>
      uploadWait r = 0 /\ (exists t, gw r = Some {| gz_Name := filename (req r); gz_ModTime := t |})
      /\ uploads r = [the_upload (req r)]
      /\ (exists c, err r = UploadWithContext_err (world r) c) /\ copier r <> K_None
  end.

(** The chain goroutine exists only once line 74 has run. *)
Definition spawn_inv (r : run) : Prop :=
  match pc r with
  | L25_Lock | L28_Setenv | L40_Command | L66_Start | L74_Go => chain r = C_None
  | L96_Wait | L106_Wait | L107_Return => chain r <> C_None
  | Returning | Done => True
  end.

(** Where a result comes from. *)
Definition outcome_inv (w : World) (o : outcome) : Prop :=
  match o with
  | PipeError e => StdoutPipe_err w = Some e
  | InvocationError e => StdoutPipe_err w = None /\ Start_err w = Some e
  | DeadlineExceeded e =>
      StdoutPipe_err w = None /\ Start_err w = None /\ Wait_err w <> None
      /\ e = Errorf "postgres dump: timeout: " context_DeadlineExceeded
  | DumpFailed e =>
      StdoutPipe_err w = None /\ Start_err w = None
      /\ exists e0, Wait_err w = Some e0 /\ e = Errorf "postgres dump: " e0
  | Finished e =>
      StdoutPipe_err w = None /\ Start_err w = None /\ Wait_err w = None
      /\ (e = None \/ exists c, e = UploadWithContext_err w c)
  end.

Definition result_inv (r : run) : Prop :=
  match pc r with
  | L25_Lock | L28_Setenv | L40_Command => True
  | L66_Start => StdoutPipe_err (world r) = None
  | L74_Go | L96_Wait => StdoutPipe_err (world r) = None /\ Start_err (world r) = None
  | L106_Wait | L107_Return =>
      StdoutPipe_err (world r) = None /\ Start_err (world r) = None
      /\ Wait_err (world r) = None
  | Returning | Done => forall o, result r = Some o -> outcome_inv (world r) o
  end.

Definition wf_run (r : run) : Prop :=
  main_inv r /\ chain_inv r /\ spawn_inv r /\ result_inv r.

(** *** What holds of the runs together *)

(** Whether call [i] holds the mutex. *)
Definition holder (s : system) (i : nat) : bool :=
  match runs s !! i with
  | Some r => holds r
  | None => false
  end.

(** The mutex is locked exactly while some run holds it, and no two runs
    hold it. *)
Definition mutex_inv (s : system) : Prop :=
  (forall i j, holder s i = true -> holder s j = true -> i = j)
  /\ (pgMutex (sh s) = true <-> exists i, holder s i = true).

Definition active_dumps (s : system) : nat :=
  length (filter (fun r => proc r = Running) (runs s)).


(** The variables of lines 34-37 and the credentials they are set from. *)
Definition pg_vars : list (string * string) :=
  [("PGUSER", "username"); ("PGPASSWORD", "password");
   ("PGHOST", "host"); ("PGPORT", "port")].

(** [env] carries the connection parameters of binding [b] (a value with
    a NUL byte cannot be exported, see [Setenv]). *)
Definition exported (b : cfenv.Service) (env : gmap string string) : Prop :=
  forall var key, (var, key) ∈ pg_vars ->
    ContainsByte (credential b key) NUL = false ->
    env !! var = Some (credential b key).

(** The host environment belongs to the run that holds the mutex, from
    line 37 on; a started dump was given its own run's parameters. *)
Definition env_inv (env : gmap string string) (r : run) : Prop :=
  (holds r = true -> pc r <> L28_Setenv -> exported (binding (req r)) env)
  /\ (forall argv envp, child r = Some (argv, envp) ->
        argv = dump_command (credential (binding (req r)) "database")
        /\ exported (binding (req r)) envp).

(** ** Example calls and schedules *)

Definition orders_binding : cfenv.Service :=
  {| cfenv.Name := "instance1";
     cfenv.Label := "svc";
     cfenv.Credentials :=
       <["host" := cfenv.VString "db.local"]>
         (<["port" := cfenv.VString "5432"]>
            (<["database" := cfenv.VString "orders"]>
               (<["username" := cfenv.VString "alice"]>
                  (<["password" := cfenv.VString "s3cret"]> ∅)))) |}.

(** A binding without database name, and with a numeric port. *)
Definition instance_binding : cfenv.Service :=
  {| cfenv.Name := "instance2";
     cfenv.Label := "svc";
     cfenv.Credentials :=
       <["host" := cfenv.VString "db2.local"]>
         (<["port" := cfenv.VNumber 5432]>
            (<["username" := cfenv.VString "bob"]>
               (<["password" := cfenv.VString "hunter2"]> ∅))) |}.

(** A binding whose password cannot be put into an environment variable. *)
Definition nul_binding : cfenv.Service :=
  {| cfenv.Name := "instance4";
     cfenv.Label := "svc";
     cfenv.Credentials :=
       <["username" := cfenv.VString "carol"]>
         (<["password" := cfenv.VString (String NUL "pw")]> ∅) |}.

Definition orders_request : Request :=
  {| ctx := {| deadline := Some 100; canceled_at := None |};
     binding := orders_binding;
     filename := "backup.sql.gz" |}.

Definition instance_request : Request :=
  {| ctx := {| deadline := Some 100; canceled_at := None |};
     binding := instance_binding;
     filename := "all.sql.gz" |}.

Definition nul_request : Request :=
  {| ctx := {| deadline := None; canceled_at := None |};
     binding := nul_binding;
     filename := "nul.sql.gz" |}.

Definition dump_succeeds : World :=
  {| StdoutPipe_err := None; Start_err := None; Wait_err := None;
     errBuf := ""; Copy_result := (8, None);
     UploadWithContext_err := fun _ => None |}.

(** pg_dump exits with status 1 after writing one line to standard error;
    the upload fails once its context is canceled. *)
Definition dump_fails : World :=
  {| StdoutPipe_err := None; Start_err := None;
     Wait_err := Some (errorString "exit status 1");
     errBuf := "connection refused" +:+ String LF "";
     Copy_result := (0, None);
     UploadWithContext_err :=
       fun canceled => if canceled then Some context_Canceled else None |}.

(** The pipe for standard output cannot be created. *)
Definition pipe_fails : World :=
  {| StdoutPipe_err := Some (errorString "exec: Stdout already set");
     Start_err := None; Wait_err := None; errBuf := ""; Copy_result := (0, None);
     UploadWithContext_err := fun _ => None |}.

(** pg_dump is not installed. *)
Definition start_fails : World :=
  {| StdoutPipe_err := None;
     Start_err := Some (errorString "exec: pg_dump: executable file not found in $PATH");
     Wait_err := None; errBuf := ""; Copy_result := (0, None);
     UploadWithContext_err := fun _ => None |}.

(** The dump is killed at the deadline. *)
Definition dump_killed : World :=
  {| StdoutPipe_err := None; Start_err := None;
     Wait_err := Some (errorString "signal: killed");
     errBuf := "pg_dump: dumping contents of table" +:+ String LF "";
     Copy_result := (4096, None);
     UploadWithContext_err :=
       fun canceled => if canceled then Some context_Canceled else None |}.

(** Lines 25-74 of call [i]. *)
Definition until_wait (i : nat) : list event := replicate 5 (Step i Main).
(** Lines 75-90 of its chain goroutine, up to the upload call. *)
Definition until_uploading (i : nat) : list event := replicate 4 (Step i Chain).

(** One call, everything succeeds, the chain finishes before line 106. *)
Definition successful_schedule : list event :=
  until_wait 0 ++ until_uploading 0 ++ replicate 3 (Step 0 Copier)
  ++ [Step 0 Dump; Step 0 Main; Step 0 Chain; Step 0 Chain]
  ++ replicate 6 (Step 0 Main).

(** One call, the dump exits while the upload is in progress and the
    call returns. *)
Definition failing_schedule : list event :=
  until_wait 0 ++ until_uploading 0 ++ [Step 0 Dump] ++ replicate 5 (Step 0 Main).

(** The dump has exited, the call is about to return from [cmd.Wait()]. *)
Definition dump_exited : list event :=
  until_wait 0 ++ until_uploading 0 ++ [Step 0 Dump].

(** The same with the clock passing the deadline before the dump exits. *)
Definition timeout_schedule : list event :=
  until_wait 0 ++ until_uploading 0 ++ [Tick 150; Step 0 Dump]
  ++ replicate 5 (Step 0 Main).

(** Up to [uploadWait.Add(1)], seven ticks after the call began. *)
Definition gzip_before : list event := until_wait 0 ++ [Tick 7; Step 0 Chain].
(** What follows the creation of the encoder. *)
Definition gzip_after : list event :=
  [Step 0 Chain; Step 0 Chain; Tick 5; Step 0 Copier; Step 0 Dump].

(** The dump exits after the deadline of the example requests. *)
Definition deadline_passed : list event :=
  until_wait 0 ++ until_uploading 0 ++ [Tick 150; Step 0 Dump].

(** The dump has exited without error and the call has reached line 106
    while the upload is in progress. *)
Definition at_line_106 : list event :=
  until_wait 0 ++ until_uploading 0 ++ [Step 0 Dump; Step 0 Main].
(** The call is held at line 106 until the chain goroutine has run
    [uploadWait.Done()]. *)
Definition past_line_106 : list event :=
  [Step 0 Main; Step 0 Chain; Step 0 Main; Step 0 Chain; Step 0 Main; Step 0 Main].

(** The dump exits without error before the chain goroutine was ever
    scheduled. *)
Definition unscheduled_chain : list event :=
  until_wait 0 ++ [Step 0 Dump] ++ replicate 7 (Step 0 Main).

(** Two calls: the second tries to lock while the first is dumping, and
    gets through once the first has returned. *)
Definition two_calls_schedule : list event :=
  until_wait 0 ++ [Step 1 Main; Step 1 Main] ++ until_uploading 0
  ++ [Step 0 Dump; Step 0 Main; Step 0 Chain; Step 0 Chain]
  ++ replicate 6 (Step 0 Main) ++ until_wait 1.

(** ** Comparing calls *)

Definition set_req v r := mkRun v (world r) (pc r) (deferred r) (err r) (result r) (proc r) (child r) (outPipe_closed r) (uploadCtx_done r) (uploadWait r) (chain r) (gw r) (uploads r) (copier r).
Definition set_world v r := mkRun (req r) v (pc r) (deferred r) (err r) (result r) (proc r) (child r) (outPipe_closed r) (uploadCtx_done r) (uploadWait r) (chain r) (gw r) (uploads r) (copier r).

Definition map_runs (f : run -> run) (s : system) : system :=
  mkSystem (sh s) (f <$> runs s).

(** The command line asks for verbose output. *)
Definition requests_verbose (argv : list string) : bool :=
  existsb (fun a => String.eqb a "-v" || String.eqb a "--verbose")%bool argv.

(** Call [i] of a system (the fresh call when there is none). *)
Definition run_of (s : system) (i : nat) : run :=
  default (new_run (orders_request, dump_succeeds)) (runs s !! i).

(** The same world with another answer of [io.Copy]. *)
Definition set_Copy_result (cr : Z * option error) (w : World) : World :=
  {| StdoutPipe_err := StdoutPipe_err w; Start_err := Start_err w;
     Wait_err := Wait_err w; errBuf := errBuf w; Copy_result := cr;
     UploadWithContext_err := UploadWithContext_err w |}.

Definition with_Copy_result (cr : Z * option error) (r : run) : run :=
  set_world (set_Copy_result cr (world r)) r.

(** The credentials [Backup] looks up. *)
Definition credential_keys : list string :=
  ["host"; "port"; "database"; "username"; "password"].

(** The same binding with every credential [Backup] looks up present as a
    string: the one it has, or the empty string. *)
Definition with_defaults (b : cfenv.Service) : cfenv.Service :=
  {| cfenv.Name := cfenv.Name b;
     cfenv.Label := cfenv.Label b;
     cfenv.Credentials :=
       foldr (fun key m => <[key := cfenv.VString (credential b key)]> m)
             (cfenv.Credentials b) credential_keys |}.

Definition request_with_defaults (rq : Request) : Request :=
  {| ctx := ctx rq; binding := with_defaults (binding rq); filename := filename rq |}.

Definition run_with_defaults (r : run) : run :=
  set_req (request_with_defaults (req r)) r.

(** A binding with no credentials at all. *)
Definition bare_binding : cfenv.Service :=
  {| cfenv.Name := "instance3"; cfenv.Label := "svc"; cfenv.Credentials := ∅ |}.

Definition bare_request : Request :=
  {| ctx := {| deadline := None; canceled_at := None |};
     binding := bare_binding;
     filename := "bare.sql.gz" |}.

(** Copying fails half way, the upload of what was copied succeeds. *)
Definition copy_fails : World :=
  set_Copy_result (4096, Some (errorString "read |0: file already closed")) dump_succeeds.

(** ** Further invariants of a run *)

(** Nothing of the dump or of the chain exists unless both
    [cmd.StdoutPipe()] and [cmd.Start()] succeeded. *)
Definition started_inv (r : run) : Prop :=
  (proc r <> NotStarted \/ child r <> None \/ chain r <> C_None) ->
  StdoutPipe_err (world r) = None /\ Start_err (world r) = None.

(** The deferred [outPipe.Close()] and [uploadCancel()] have effect only
    during a return, and a return runs each one that was registered. *)
Definition cleanup_inv (r : run) : Prop :=
  match pc r with
  | Returning | Done =>
      (StdoutPipe_err (world r) = None -> Start_err (world r) = None ->
       uploadCancel ∈ deferred r \/ uploadCtx_done r = true)
      /\ (StdoutPipe_err (world r) = None ->
          outPipe_Close ∈ deferred r \/ outPipe_closed r = true)
  | _ => uploadCtx_done r = false /\ outPipe_closed r = false
  end.

(** What line 90 stored in [err]: the answer of an upload whose context
    was not canceled, unless the call had already returned. *)
Definition upload_inv (r : run) : Prop :=
  match chain r with
  | C75_Done | C_Exited =>
      err r = UploadWithContext_err (world r) false
      \/ (result r <> None /\ err r = UploadWithContext_err (world r) true)
  | _ => True
  end.

(** Line 107 returns nil or the answer of an uncanceled upload. *)
Definition finished_inv (r : run) : Prop :=
  forall e, result r = Some (Finished e) ->
    e = None \/ e = UploadWithContext_err (world r) false.

Definition wf_run' (r : run) : Prop :=
  wf_run r /\ started_inv r /\ cleanup_inv r /\ upload_inv r /\ finished_inv r.

(** The wait group is counting the chain goroutine. *)
Definition in_flight (c : chain_pc) : bool :=
  match c with
  | C79_Gzip | C83_Go | C89_Upload | C90_Uploading | C75_Done => true
  | _ => false
  end.

(** The messages of lines 51, 57, 67 and 92. *)
Definition command_message (rq : Request) : string :=
  "executing postgres backup command: "
  +:+ Join (dump_command (credential (binding rq) "database")) " ".
Definition pipe_message (e : error) : string :=
  "could not get stdout pipe for postgres dump: " +:+ Error e.
Definition start_message (e : error) : string :=
  "could not run postgres dump: " +:+ Error e.
Definition upload_message (rq : Request) (e : error) : string :=
  "could not upload service backup [" +:+ cfenv.Name (binding rq)
  +:+ "] to S3: " +:+ Error e.

(** What the log holds about a run. *)
Definition log_inv (l : list log_call) (r : run) : Prop :=
  (pc r <> L25_Lock -> pc r <> L28_Setenv -> pc r <> L40_Command ->
   log_Debugf (command_message (req r)) ∈ l)
  /\ (forall e, result r = Some (PipeError e) -> log_Errorf (pipe_message e) ∈ l)
  /\ (forall e, result r = Some (InvocationError e) -> log_Errorf (start_message e) ∈ l)
  /\ (forall e, result r = Some (DumpFailed e) ->
        log_Errorln (TrimRight (errBuf (world r)) CRLF) ∈ l)
  /\ (forall e, chain r = C75_Done \/ chain r = C_Exited -> err r = Some e ->
        log_Errorf (upload_message (req r) e) ∈ l).

(** The environment variables [Backup] sets. *)
Definition pg_names : list string := ["PGUSER"; "PGPASSWORD"; "PGHOST"; "PGPORT"].

(** The upload fails on its own. *)
Definition upload_fails : World :=
  {| StdoutPipe_err := None; Start_err := None; Wait_err := None;
     errBuf := ""; Copy_result := (8, None);
     UploadWithContext_err := fun _ => Some (errorString "AccessDenied") |}.

(** A host environment with a variable of its own. *)
Definition host_env : gmap string string := <["PATH" := "/usr/bin"]> ∅.

(** ** How much of a call is left to run *)







#[global] Instance main_pc_eq_dec : EqDecision main_pc.
Proof. solve_decision. Defined.


(** The caller gives up at 40, before the deadline of 100. *)
Definition canceled_request : Request :=
  {| ctx := {| deadline := Some 100; canceled_at := Some 40 |};
     binding := orders_binding;
     filename := "backup.sql.gz" |}.
(** ** Basic facts about the library functions *)

Section go_facts.

Lemma Err_monotone (c : Context) (t t' : Z) (e : error) :
  Err c t = Some e -> t <= t' -> Err c t' = Some e.
Proof.
  unfold Err. intros H Hle.
  destruct (deadline c) as [d|], (canceled_at c) as [k|]; try discriminate;
    repeat match goal with
           | H : context [?a <=? ?b] |- _ => destruct (Z.leb_spec a b); try discriminate
           | |- context [?a <=? ?b] => destruct (Z.leb_spec a b)
           end; try assumption; try lia.
Qed.

Lemma TrimRight_split (s cutset : string) :
  exists dropped, s = TrimRight s cutset +:+ dropped /\ all_in cutset dropped = true.
Proof.
  induction s as [|a s IH]; simpl.
  - exists ""%string. split; reflexivity.
  - destruct IH as (dropped & Heq & Hall).
    destruct (TrimRight s cutset) as [|b t] eqn:Ht.
    + destruct (ContainsByte cutset a) eqn:Ha.
      * exists (String a dropped). split; [rewrite Heq at 1; reflexivity|].
        simpl. by rewrite Ha, Hall.
      * exists dropped. split; [rewrite Heq at 1; reflexivity|done].
    + exists dropped. split; [rewrite Heq at 1; reflexivity|done].
Qed.

Lemma TrimRight_last (s cutset : string) (a : ascii) :
  last_byte (TrimRight s cutset) = Some a -> ContainsByte cutset a = false.
Proof.
  revert a. induction s as [|b s IH]; simpl; intros a H; [discriminate|].
  destruct (TrimRight s cutset) as [|c t] eqn:Ht.
  - destruct (ContainsByte cutset b) eqn:Hb; simpl in H; [discriminate|congruence].
  - apply IH. exact H.
Qed.

Lemma ContainsByte_CRLF (a : ascii) :
  ContainsByte CRLF a = false <-> a <> CR /\ a <> LF.
Proof.
  unfold CRLF. cbn [ContainsByte].
  destruct (Ascii.eqb_spec CR a) as [H1|H1], (Ascii.eqb_spec LF a) as [H2|H2];
    split; intros H; try discriminate; try reflexivity;
    try (destruct H; congruence); split; congruence.
Qed.

End go_facts.

(** ** Schedules *)

Section schedules.

Lemma exec_app (a b : list event) (s : system) :
  exec (a ++ b) s = exec b (exec a s).
Proof. unfold exec. apply fold_left_app. Qed.

Lemma exec_snoc (a : list event) (e : event) (s : system) :
  exec (a ++ [e]) s = step (exec a s) e.
Proof. by rewrite exec_app. Qed.

Lemma exec_cons (e : event) (a : list event) (s : system) :
  exec (e :: a) s = exec a (step s e).
Proof. reflexivity. Qed.

(** A step of call [i] leaves the other calls alone. *)
Lemma step_other (s : system) (i j : nat) (t : thread) :
  i <> j -> runs (step s (Step i t)) !! j = runs s !! j.
Proof.
  intros Hne. simpl. destruct (runs s !! i) as [r|] eqn:Hr; [|done].
  destruct (step_thread t (sh s) r) as [sh' r']. simpl.
  by apply list_lookup_insert_ne.
Qed.

Lemma step_same (s : system) (i : nat) (t : thread) (r : run) :
  runs s !! i = Some r ->
  step s (Step i t) =
    mkSystem (step_thread t (sh s) r).1 (<[i := (step_thread t (sh s) r).2]> (runs s))
  /\ runs (step s (Step i t)) !! i = Some (step_thread t (sh s) r).2.
Proof.
  intros Hr. simpl. rewrite Hr.
  destruct (step_thread t (sh s) r) as [sh' r']. simpl. split; [done|].
  apply list_lookup_insert_eq. by eapply lookup_lt_Some.
Qed.

(** The arguments and the outside world of a call never change. *)
Lemma step_thread_req (t : thread) (sh0 : shared) (r : run) :
  req (step_thread t sh0 r).2 = req r /\ world (step_thread t sh0 r).2 = world r.
Proof.
  destruct t; simpl.
  - unfold Backup_step, return_, defer, run_deferred.
    repeat match goal with
           | |- context [match ?x with _ => _ end] => destruct x
           end; done.
  - unfold upload_step.
    repeat match goal with
           | |- context [match ?x with _ => _ end] => destruct x
           end; done.
  - unfold copy_step.
    repeat match goal with
           | |- context [match ?x with _ => _ end] => destruct x
           end; done.
  - unfold dump_step. by destruct (proc r).
Qed.

Lemma init_lookup now env calls (i : nat) (r : run) :
  runs (init now env calls) !! i = Some r ->
  exists call, calls !! i = Some call /\ r = new_run call.
Proof.
  simpl. rewrite list_lookup_fmap. destruct (calls !! i) as [c|]; simpl; [|done].
  intros [= <-]. by exists c.
Qed.

End schedules.

(** ** Invariants of a single run *)

Ltac break_match :=
  repeat (try assumption;
          match goal with
          | |- context [match ?x with _ => _ end] =>
              lazymatch x with
              | context [match _ with _ => _ end] => fail
              | _ => destruct x eqn:?; simpl in *
              end
          end).

Ltac wf_close :=
  unfold outcome_inv in *; simpl in *;
  intuition (subst; simplify_eq; try congruence; eauto).

Section run_invariants.

Lemma new_run_wf call : wf_run (new_run call).
Proof. repeat split. Qed.

Lemma step_thread_wf t sh0 r : wf_run r -> wf_run (step_thread t sh0 r).2.
Proof.
destruct r as [rq w p d e res pr ch oc uc uw c g u k].
unfold wf_run, main_inv, chain_inv, spawn_inv, result_inv. simpl.
intros (Hm & Hc & Hs & Hr).
destruct t; simpl;
  unfold Backup_step, upload_step, copy_step, dump_step, return_, defer, run_deferred;
  simpl.
- (split; [|split; [|split]]);
    destruct p; simpl in *; subst; simpl in *; break_match; wf_close.
  + repeat split; congruence.
  + destruct c; wf_close.
- (split; [|split; [|split]]);
    destruct c; simpl in *; subst; simpl in *; break_match; wf_close.
- (split; [|split; [|split]]);
    destruct k; simpl in *; subst; simpl in *; break_match; wf_close.
- (split; [|split; [|split]]);
    destruct pr; simpl in *; subst; simpl in *; break_match; wf_close.
Qed.

Lemma step_wf (s : system) (e : event) :
(forall i r, runs s !! i = Some r -> wf_run r) ->
forall i r, runs (step s e) !! i = Some r -> wf_run r.
Proof.
intros Hwf i r'. destruct e as [d|j t]; simpl; [apply Hwf|].
destruct (runs s !! j) as [rj|] eqn:Hj; [|apply Hwf].
destruct (step_thread t (sh s) rj) as [sh' rj'] eqn:Hst. simpl.
intros [(-> & <- & _)|(_ & Hi)]%list_lookup_insert_Some; [|by eapply Hwf].
replace rj' with (step_thread t (sh s) rj).2 by (by rewrite Hst).
apply step_thread_wf. by eapply Hwf.
Qed.

Lemma exec_wf (sched : list event) (s : system) :
(forall i r, runs s !! i = Some r -> wf_run r) ->
forall i r, runs (exec sched s) !! i = Some r -> wf_run r.
Proof.
revert s. induction sched as [|e sched IH]; intros s Hwf; [exact Hwf|].
rewrite exec_cons. apply IH. by apply step_wf.
Qed.

Lemma init_wf now env calls (i : nat) (r : run) :
runs (init now env calls) !! i = Some r -> wf_run r.
Proof. intros (c & _ & ->)%init_lookup. apply new_run_wf. Qed.

Lemma reachable_wf now env calls sched (i : nat) (r : run) :
runs (exec sched (init now env calls)) !! i = Some r -> wf_run r.
Proof. apply exec_wf. apply init_wf. Qed.

Lemma step_thread_lock (t : thread) (sh0 : shared) (r : run) :
  main_inv r ->
  (holds (step_thread t sh0 r).2 = holds r
   /\ pgMutex (step_thread t sh0 r).1 = pgMutex sh0)
  \/ (t = Main /\ pc r = L25_Lock /\ holds r = false /\ holds (step_thread t sh0 r).2 = true
      /\ pgMutex sh0 = false /\ pgMutex (step_thread t sh0 r).1 = true)
  \/ (t = Main /\ pc r = Returning /\ holds r = true /\ holds (step_thread t sh0 r).2 = false
      /\ pgMutex (step_thread t sh0 r).1 = false).
Proof.
  destruct r as [rq w p d e res pr ch oc uc uw c g u k].
  unfold main_inv, holds. simpl. intros Hm.
  destruct t; simpl;
    unfold Backup_step, upload_step, copy_step, dump_step, return_, defer, run_deferred;
    simpl.
  - destruct p; simpl in *; break_match; simpl in *;
      destruct_and?; destruct_or?; subst; simplify_eq; simpl;
      first [ left; split; done
            | right; left; repeat split; done
            | right; right; repeat split; done ].
  - left. destruct c; simpl; break_match; done.
  - left. destruct k; simpl; break_match; done.
  - left. destruct pr; simpl; done.
Qed.

(** Threads never touch the clock, and only line 34-37 touch the environment. *)
Lemma step_thread_shared (t : thread) (sh0 : shared) (r : run) :
  clock (step_thread t sh0 r).1 = clock sh0
  /\ (environ (step_thread t sh0 r).1 = environ sh0
      \/ (t = Main /\ pc r = L28_Setenv
          /\ environ (step_thread t sh0 r).1 = export_credentials (binding (req r)) (environ sh0)))
  /\ (exists new, logs (step_thread t sh0 r).1 = logs sh0 ++ new).
Proof.
  destruct r as [rq w p d e res pr ch oc uc uw c g u k].
  destruct t; simpl;
    unfold Backup_step, upload_step, copy_step, dump_step, return_, defer, run_deferred;
    simpl.
  - destruct p; simpl in *; break_match; simpl; (split; [done|split; [auto|]]);
      rewrite <- ?app_assoc; first [by exists [] ; rewrite app_nil_r | eauto].
  - destruct c; simpl in *; break_match; simpl; (split; [done|split; [auto|]]);
      first [by exists [] ; rewrite app_nil_r | eauto].
  - destruct k; simpl in *; break_match; simpl; (split; [done|split; [auto|]]);
      by exists [] ; rewrite app_nil_r.
  - destruct pr; simpl in *; (split; [done|split; [auto|]]);
      by exists [] ; rewrite app_nil_r.
Qed.

End run_invariants.

(** ** The mutex *)

Section mutual_exclusion.

Lemma holder_step (s : system) (i j : nat) (t : thread) (r : run) :
  runs s !! i = Some r ->
  holder (step s (Step i t)) j =
    if decide (i = j) then holds (step_thread t (sh s) r).2 else holder s j.
Proof.
  intros Hr. unfold holder. destruct (decide (i = j)) as [<-|Hne].
  - by destruct (step_same s i t r Hr) as [_ ->].
  - by rewrite step_other.
Qed.

Lemma step_mutex (s : system) (e : event) :
  (forall i r, runs s !! i = Some r -> wf_run r) ->
  mutex_inv s -> mutex_inv (step s e).
Proof.
  intros Hwf [Huniq Hiff]. destruct e as [d|i t]; [exact (conj Huniq Hiff)|].
  destruct (runs s !! i) as [r|] eqn:Hr;
    [|unfold step; rewrite Hr; exact (conj Huniq Hiff)].
  assert (Hhi : holder s i = holds r) by (unfold holder; by rewrite Hr).
  pose proof (holder_step s i) as Hstep.
  assert (Hsh : sh (step s (Step i t)) = (step_thread t (sh s) r).1)
    by (by destruct (step_same s i t r Hr) as [-> _]).
  unfold mutex_inv. rewrite Hsh.
  destruct (step_thread_lock t (sh s) r) as
    [[Hh Hm]|[(_ & _ & Hh & Hh' & Hm & Hm')|(_ & _ & Hh & Hh' & Hm')]];
    [apply (Hwf i r Hr)| | |].
  - (* the step neither locks nor unlocks *)
    assert (Hsame : forall j, holder (step s (Step i t)) j = holder s j).
    { intros j. rewrite (Hstep j t r Hr). case_decide; congruence. }
    split.
    + intros a b. rewrite !Hsame. apply Huniq.
    + rewrite Hm, Hiff. split; intros [a Ha]; exists a; by rewrite ?Hsame in *.
  - (* line 25 *)
    assert (Hnone : forall j, holder s j = false).
    { intros j. destruct (holder s j) eqn:Hj; [|done].
      assert (pgMutex (sh s) = true) by (apply Hiff; eauto). congruence. }
    split.
    + intros a b. rewrite !(Hstep _ t r Hr), !Hnone.
      repeat case_decide; congruence.
    + rewrite Hm'. split; [intros _|done]. exists i.
      rewrite (Hstep _ t r Hr). by rewrite decide_True.
  - (* the deferred Unlock *)
    assert (Hnone : forall j, holder (step s (Step i t)) j = false).
    { intros j. rewrite (Hstep _ t r Hr). case_decide; [done|].
      destruct (holder s j) eqn:Hj; [|done].
      exfalso. assert (i = j); [|done]. apply Huniq; congruence. }
    split.
    + intros a b. rewrite !Hnone. done.
    + rewrite Hm'. split; [done|]. intros [a Ha]. by rewrite Hnone in Ha.
Qed.

Lemma exec_mutex (sched : list event) (s : system) :
  (forall i r, runs s !! i = Some r -> wf_run r) ->
  mutex_inv s -> mutex_inv (exec sched s).
Proof.
  revert s. induction sched as [|e sched IH]; intros s Hwf Hm; [exact Hm|].
  rewrite exec_cons. apply IH; [by apply step_wf|by apply step_mutex].
Qed.

Lemma init_mutex now env calls : mutex_inv (init now env calls).
Proof.
  assert (Hnone : forall i, holder (init now env calls) i = false).
  { intros i. unfold holder.
    destruct (runs (init now env calls) !! i) as [r|] eqn:Hr; [|done].
    by apply init_lookup in Hr as (c & _ & ->). }
  split.
  - intros i j. by rewrite Hnone.
  - simpl. split; [done|]. intros [i Hi]. by rewrite Hnone in Hi.
Qed.

Lemma reachable_mutex now env calls sched :
  mutex_inv (exec sched (init now env calls)).
Proof. apply exec_mutex; [apply init_wf|apply init_mutex]. Qed.

(** A running dump belongs to a run that holds the mutex. *)
Lemma running_holds (r : run) : main_inv r -> proc r = Running -> holds r = true.
Proof.
  unfold main_inv, holds. intros Hm Hp.
  destruct (pc r); destruct_and?; destruct_or?;
    try congruence;
    match goal with H : deferred r = _ |- _ => rewrite H end; done.
Qed.

Lemma filter_at_most_one {A} (P : A -> Prop) `{!forall x, Decision (P x)} (l : list A) :
  (forall i j x y, l !! i = Some x -> l !! j = Some y -> P x -> P y -> i = j) ->
  (length (filter P l) <= 1)%nat.
Proof.
  induction l as [|a l IH]; intros Huniq; [simpl; lia|].
  rewrite filter_cons. destruct (decide (P a)) as [Ha|Ha].
  - assert (filter P l = []) as ->; [|simpl; lia].
    destruct (filter P l) as [|x rest] eqn:Hf; [done|].
    assert (Hx : x ∈ filter P l) by (rewrite Hf; apply list_elem_of_here).
    apply list_elem_of_filter in Hx as [Px Hx].
    apply list_elem_of_lookup in Hx as [j Hj].
    specialize (Huniq 0%nat (S j) a x eq_refl Hj Ha Px). lia.
  - apply IH. intros i j x y Hi Hj Px Py.
    assert (S i = S j) by (eapply Huniq; eauto). lia.
Qed.

(** Once a [return] statement has run, four more steps of the calling
    goroutine run every pending deferred call and end the call. *)
Lemma returning_completes (r : run) (sh1 sh2 sh3 sh4 : shared) :
  main_inv r -> result r <> None ->
  let r4 := (Backup_step sh4 (Backup_step sh3 (Backup_step sh2 (Backup_step sh1 r).2).2).2).2 in
  pc r4 = Done /\ result r4 = result r /\ holds r4 = false.
Proof.
  destruct r as [rq w p d e res pr ch oc uc uw c g u k].
  unfold main_inv. simpl. intros Hm Hres.
  destruct p; destruct_and?; try congruence; destruct_or?; subst; done.
Qed.

Lemma return_completes (s : system) (i : nat) (r : run) :
  runs s !! i = Some r -> main_inv r -> result r <> None ->
  exists r', runs (exec (replicate 4 (Step i Main)) s) !! i = Some r'
             /\ pc r' = Done /\ result r' = result r /\ holds r' = false.
Proof.
  intros Hr Hm Hres. cbn [replicate]. rewrite !exec_cons. cbn [exec fold_left].
  destruct (step_same s i Main r Hr) as [_ H1].
  destruct (step_same _ i Main _ H1) as [_ H2].
  destruct (step_same _ i Main _ H2) as [_ H3].
  destruct (step_same _ i Main _ H3) as [_ H4].
  eexists. split; [exact H4|]. by apply returning_completes.
Qed.

End mutual_exclusion.

(** ** The host environment *)

Section environment.

Lemma export_credentials_exported (b : cfenv.Service) (env : gmap string string) :
  exported b (export_credentials b env).
Proof.
  intros var key Hin Hnul. unfold export_credentials, Setenv. simpl.
  unfold pg_vars in Hin.
  repeat match goal with
         | |- context [ContainsByte ?v NUL] =>
             lazymatch v with
             | credential b _ => destruct (ContainsByte v NUL) eqn:?
             end
         end; simpl;
    set_unfold; destruct_or?; simplify_eq; try done; try congruence;
    by simplify_map_eq.
Qed.

Lemma step_thread_env (t : thread) (sh0 : shared) (r : run) :
  main_inv r -> env_inv (environ sh0) r ->
  env_inv (environ (step_thread t sh0 r).1) (step_thread t sh0 r).2.
Proof.
  destruct r as [rq w p d e res pr ch oc uc uw c g u k].
  unfold main_inv, env_inv, holds. simpl. intros Hm [Hhost Hchild].
  destruct t; simpl;
    unfold Backup_step, upload_step, copy_step, dump_step, return_, defer, run_deferred;
    simpl.
  - destruct p; simpl in *; break_match; simpl in *;
      destruct_and?; subst; simpl in *;
      (split; [intros Hh Hpc | intros argv envp Hch; simplify_eq]);
      try done; try (by apply Hchild);
      try (by apply export_credentials_exported);
      try (by apply Hhost).
    + split; [done|]. by apply Hhost.
    + destruct_or?; simplify_eq; simpl in *; try done; by apply Hhost.
    + destruct_or?; simplify_eq; simpl in *; try done; by apply Hhost.
  - destruct c; simpl in *; break_match; simpl in *; by split.
  - destruct k; simpl in *; break_match; simpl in *; by split.
  - destruct pr; simpl in *; by split.
Qed.

Lemma env_inv_not_holding (env env' : gmap string string) (r : run) :
  holds r = false -> env_inv env r -> env_inv env' r.
Proof. intros Hh [_ Hchild]. split; [congruence|exact Hchild]. Qed.

Lemma step_env (s : system) (e : event) :
  (forall i r, runs s !! i = Some r -> wf_run r) ->
  mutex_inv s ->
  (forall i r, runs s !! i = Some r -> env_inv (environ (sh s)) r) ->
  forall i r, runs (step s e) !! i = Some r -> env_inv (environ (sh (step s e))) r.
Proof.
  intros Hwf [Huniq _] Henv j rj'. destruct e as [d|i t]; [apply Henv|].
  destruct (runs s !! i) as [r|] eqn:Hr; [|unfold step; rewrite Hr; apply Henv].
  destruct (step_same s i t r Hr) as [Hs Hi]. rewrite Hs. simpl.
  destruct (Hwf i r Hr) as [Hm _].
  intros [(-> & <- & _)|(Hne & Hj)]%list_lookup_insert_Some.
  - apply step_thread_env; [done|by apply (Henv j)].
  - destruct (step_thread_shared t (sh s) r) as (_ & [->|(_ & Hpc & _)] & _);
      [by apply (Henv j)|].
    eapply env_inv_not_holding; [|by apply (Henv j)].
    destruct (holds rj') eqn:Hh; [|done]. exfalso. apply Hne.
    apply Huniq; unfold holder; rewrite ?Hr, ?Hj; [|done].
    unfold main_inv in Hm. rewrite Hpc in Hm. unfold holds. by destruct Hm as [-> _].
Qed.

Lemma reachable_env now env calls sched (i : nat) (r : run) :
  runs (exec sched (init now env calls)) !! i = Some r ->
  env_inv (environ (sh (exec sched (init now env calls)))) r.
Proof.
  revert i r. induction sched as [|e sched IH] using rev_ind; intros i r.
  - intros (c & _ & ->)%init_lookup. split; [done|]. by intros argv envp [=].
  - rewrite exec_snoc. apply step_env; [apply reachable_wf|apply reachable_mutex|exact IH].
Qed.

End environment.

(** ** Properties of one run that survive every schedule *)

Section run_predicate.

(** [J now r]: a property of a run that may mention the clock. *)
Variable J : Z -> run -> Prop.
Hypothesis J_step :
  forall t sh0 r, J (clock sh0) r -> J (clock sh0) (step_thread t sh0 r).2.
Hypothesis J_tick : forall now d r, J now r -> J (now + Z.of_N d) r.

Lemma step_preserves (s : system) (e : event) (i : nat) (r : run) :
  runs s !! i = Some r -> J (clock (sh s)) r ->
  exists r', runs (step s e) !! i = Some r' /\ J (clock (sh (step s e))) r'.
Proof using J_step J_tick.
  intros Hr HJ. destruct e as [d|j t].
  - exists r. split; [done|]. simpl. by apply J_tick.
  - destruct (runs s !! j) as [rj|] eqn:Hj;
      [|exists r; unfold step; rewrite Hj; done].
    destruct (step_same s j t rj Hj) as [Hs Hj'].
    assert (Hclock : clock (sh (step s (Step j t))) = clock (sh s)).
    { rewrite Hs. simpl. apply step_thread_shared. }
    rewrite Hclock. destruct (decide (j = i)) as [->|Hne].
    + rewrite Hr in Hj. injection Hj as <-. eexists. split; [exact Hj'|].
      by apply J_step.
    + exists r. split; [|done]. by rewrite step_other.
Qed.

Lemma exec_preserves (sched : list event) (s : system) (i : nat) (r : run) :
  runs s !! i = Some r -> J (clock (sh s)) r ->
  exists r', runs (exec sched s) !! i = Some r' /\ J (clock (sh (exec sched s))) r'.
Proof using J_step J_tick.
  revert s r. induction sched as [|e sched IH]; intros s r Hr HJ; [by exists r|].
  rewrite exec_cons. destruct (step_preserves s e i r Hr HJ) as (r1 & Hr1 & HJ1).
  by apply (IH _ r1).
Qed.

End run_predicate.

(** ** Runs that differ in something the code never looks at *)

Section simulation.

Variable f : run -> run.
Hypothesis f_step :
  forall t sh0 r,
    step_thread t sh0 (f r) = ((step_thread t sh0 r).1, f (step_thread t sh0 r).2).

Lemma step_map (s : system) (e : event) :
  step (map_runs f s) e = map_runs f (step s e).
Proof using f_step.
  destruct e as [d|i t]; [done|]. unfold step, map_runs. simpl.
  rewrite list_lookup_fmap. destruct (runs s !! i) as [r|]; simpl; [|done].
  rewrite f_step. destruct (step_thread t (sh s) r) as [sh' r']. simpl.
  by rewrite list_fmap_insert.
Qed.

Lemma exec_map (sched : list event) (s : system) :
  exec sched (map_runs f s) = map_runs f (exec sched s).
Proof using f_step.
  revert s. induction sched as [|e sched IH]; intros s; [done|].
  by rewrite !exec_cons, step_map, IH.
Qed.

End simulation.

(** The logs only grow. *)
Lemma exec_logs (sched : list event) (s : system) :
  exists new, logs (sh (exec sched s)) = logs (sh s) ++ new.
Proof.
  revert s. induction sched as [|e sched IH]; intros s.
  - exists []. by rewrite app_nil_r.
  - rewrite exec_cons. destruct (IH (step s e)) as [new ->].
    assert (exists new0, logs (sh (step s e)) = logs (sh s) ++ new0) as [new0 ->].
    { destruct e as [d|i t]; [exists []; by rewrite app_nil_r|].
      destruct (runs s !! i) as [r|] eqn:Hr;
        [|exists []; unfold step; rewrite Hr; by rewrite app_nil_r].
      destruct (step_same s i t r Hr) as [-> _]. simpl.
      apply step_thread_shared. }
    exists (new0 ++ new). by rewrite app_assoc.
Qed.

(** Once created, the encoder of a run is never replaced. *)
Lemma gw_stable (g : gzip_Writer) (t : thread) (sh0 : shared) (r : run) :
  wf_run r /\ gw r = Some g ->
  wf_run (step_thread t sh0 r).2 /\ gw (step_thread t sh0 r).2 = Some g.
Proof.
  intros [Hwf Hg]. split; [by apply step_thread_wf|].
  destruct Hwf as (_ & Hc & _). revert Hc Hg.
  destruct r as [rq w p d e res pr ch oc uc uw c g0 u k].
  unfold chain_inv. simpl. intros Hc ->.
  destruct t; simpl;
    unfold Backup_step, upload_step, copy_step, dump_step, return_, defer, run_deferred;
    simpl.
  - destruct p; simpl; break_match; done.
  - destruct c; simpl; break_match; try done; by destruct_and?.
  - destruct k; simpl; break_match; done.
  - destruct pr; done.
Qed.


(** ** The return of [cmd.Wait()] *)

(** Lines 96-104 when the dump has exited with an error. *)
Lemma Backup_step_Wait_err (sh0 : shared) (r : run) (e : error) :
  pc r = L96_Wait -> proc r = Exited -> Wait_err (world r) = Some e ->
  Backup_step sh0 r =
    if decide (Err (ctx (req r)) (clock sh0) = Some context_DeadlineExceeded)
    then (sh0, return_ (DeadlineExceeded
                          (Errorf "postgres dump: timeout: " context_DeadlineExceeded)) r)
    else (log (log_Errorln (TrimRight (errBuf (world r)) CRLF)) sh0,
          return_ (DumpFailed (Errorf "postgres dump: " e)) r).
Proof. intros Hpc Hp He. unfold Backup_step. by rewrite Hpc, Hp, He. Qed.

(** A result, once returned, stays. *)
Lemma result_stable (o : outcome) (t : thread) (sh0 : shared) (r : run) :
  (pc r = Returning \/ pc r = Done) /\ result r = Some o ->
  (pc (step_thread t sh0 r).2 = Returning \/ pc (step_thread t sh0 r).2 = Done)
  /\ result (step_thread t sh0 r).2 = Some o.
Proof.
  destruct r as [rq w p d e res pr ch oc uc uw c g u k]. simpl. intros [Hpc ->].
  destruct t; simpl;
    unfold Backup_step, upload_step, copy_step, dump_step, return_, defer, run_deferred;
    simpl.
  - destruct Hpc as [-> | ->]; simpl; break_match; auto.
  - destruct c; simpl; break_match; auto.
  - destruct k; simpl; break_match; auto.
  - destruct pr; auto.
Qed.

Lemma exec_result_stable (o : outcome) (sched : list event) (s : system) (i : nat) (r : run) :
  runs s !! i = Some r -> (pc r = Returning \/ pc r = Done) -> result r = Some o ->
  result <$> runs (exec sched s) !! i = Some (Some o).
Proof.
  intros Hr Hpc Ho.
  destruct (exec_preserves
              (fun _ r0 => (pc r0 = Returning \/ pc r0 = Done) /\ result r0 = Some o)
              (fun t sh0 r0 => result_stable o t sh0 r0) (fun _ _ _ H => H)
              sched s i r Hr (conj Hpc Ho)) as (r' & -> & _ & Ho').
  simpl. by rewrite Ho'.
Qed.

(** What the call returns once [cmd.Wait()] has reported an error is
    decided by [ctx.Err()] at that step. *)
Lemma Wait_err_result (s : system) (i : nat) (r : run) (e : error) (sched : list event) :
  runs s !! i = Some r ->
  pc r = L96_Wait -> proc r = Exited -> Wait_err (world r) = Some e ->
  result <$> runs (exec (Step i Main :: sched) s) !! i =
    Some (Some (if decide (Err (ctx (req r)) (clock (sh s)) = Some context_DeadlineExceeded)
                then DeadlineExceeded
                       (errorString "postgres dump: timeout: context deadline exceeded")
                else DumpFailed (errorString ("postgres dump: " +:+ Error e)))).
Proof.
  intros Hr Hpc Hp He. rewrite exec_cons.
  destruct (step_same s i Main r Hr) as [_ Hr1]. simpl in Hr1.
  rewrite (Backup_step_Wait_err _ _ e Hpc Hp He) in Hr1.
  destruct (decide (Err (ctx (req r)) (clock (sh s)) = Some context_DeadlineExceeded));
    simpl in Hr1; (eapply exec_result_stable; [exact Hr1|by left|reflexivity]).
Qed.


(** While a call sits in [cmd.Wait()] on an exited dump, the other threads
    and the clock leave it there; its own next step returns. *)
Lemma waiting_stable (t0 : Z) (rq : Request) (w : World) (o : outcome)
    (t : thread) (sh0 : shared) (r : run) :
  (forall sh1 r1, t0 <= clock sh1 -> req r1 = rq -> world r1 = w ->
     pc r1 = L96_Wait -> proc r1 = Exited ->
     result (Backup_step sh1 r1).2 = Some o
     /\ pc (Backup_step sh1 r1).2 = Returning) ->
  t0 <= clock sh0 /\ req r = rq /\ world r = w
  /\ ((pc r = L96_Wait /\ proc r = Exited)
      \/ ((pc r = Returning \/ pc r = Done) /\ result r = Some o)) ->
  t0 <= clock sh0 /\ req (step_thread t sh0 r).2 = rq /\ world (step_thread t sh0 r).2 = w
  /\ ((pc (step_thread t sh0 r).2 = L96_Wait /\ proc (step_thread t sh0 r).2 = Exited)
      \/ ((pc (step_thread t sh0 r).2 = Returning \/ pc (step_thread t sh0 r).2 = Done)
          /\ result (step_thread t sh0 r).2 = Some o)).
Proof.
  intros Hret (Ht & Hq & Hw & Hcase).
  destruct (step_thread_req t sh0 r) as [Hq' Hw'].
  split; [done|]. split; [congruence|]. split; [congruence|].
  destruct Hcase as [[Hpc Hp]|Hdone].
  - destruct t; simpl.
    + right. destruct (Hret sh0 r Ht Hq Hw Hpc Hp) as [Ho Hpc']. auto.
    + left. unfold upload_step. destruct (chain r); simpl; break_match; auto.
    + left. unfold copy_step. destruct (copier r); simpl; break_match; auto.
    + left. unfold dump_step. rewrite Hp. auto.
  - right. by apply result_stable.
Qed.


(** ** Line 106 *)

(** A call that reached [uploadWait.Wait()] after its chain goroutine had
    registered gets past it only once the chain goroutine is gone. *)
Lemma wait_group_stable (t : thread) (sh0 : shared) (r : run) :
  wf_run r
  /\ ((pc r = L106_Wait /\ registered (chain r) = true)
      \/ (pc r <> L106_Wait /\ chain r = C_Exited)) ->
  wf_run (step_thread t sh0 r).2
  /\ ((pc (step_thread t sh0 r).2 = L106_Wait
       /\ registered (chain (step_thread t sh0 r).2) = true)
      \/ (pc (step_thread t sh0 r).2 <> L106_Wait
          /\ chain (step_thread t sh0 r).2 = C_Exited)).
Proof.
  intros [Hwf Hcase]. split; [by apply step_thread_wf|].
  destruct Hwf as (Hm & Hc & Hs & _). revert Hm Hc Hs Hcase.
  destruct r as [rq w p d e res pr ch oc uc uw c g u k].
  unfold main_inv, chain_inv, spawn_inv. simpl. intros Hm Hc Hs Hcase.
  destruct t; simpl;
    unfold Backup_step, upload_step, copy_step, dump_step, return_, defer, run_deferred;
    simpl.
  - destruct Hcase as [[-> Hreg]|[Hpc ->]].
    + simpl. destruct (Z.eqb_spec uw 0) as [->|Hne]; simpl; [|by left].
      right. split; [done|]. destruct c; simpl in *; destruct_and?; try done; lia.
    + destruct p; simpl in *; break_match; simpl; try congruence;
        first [right; split; [discriminate|reflexivity] | left; split; reflexivity].
  - destruct Hcase as [[-> Hreg]|[Hpc ->]].
    + left. destruct c; simpl in *; break_match; done.
    + right. done.
  - destruct k; simpl; break_match; simpl; exact Hcase.
  - destruct pr; simpl; exact Hcase.
Qed.

(** ** What [Backup] does not look at *)

Lemma with_Copy_result_step (cr : Z * option error) (t : thread) (sh0 : shared) (r : run) :
  step_thread t sh0 (with_Copy_result cr r)
  = ((step_thread t sh0 r).1, with_Copy_result cr (step_thread t sh0 r).2).
Proof.
  destruct r as [rq w p d e res pr ch oc uc uw c g u k].
  destruct t; simpl;
    unfold Backup_step, upload_step, copy_step, dump_step, return_, defer, run_deferred,
      with_Copy_result; simpl.
  - destruct p; simpl; break_match; reflexivity.
  - destruct c; simpl; break_match; reflexivity.
  - destruct cr. destruct k; simpl; break_match; reflexivity.
  - destruct pr; reflexivity.
Qed.

Lemma init_with_Copy_result now env calls (cr : Z * option error) :
  init now env ((fun call => (call.1, set_Copy_result cr call.2)) <$> calls)
  = map_runs (with_Copy_result cr) (init now env calls).
Proof.
  unfold init, map_runs. simpl. f_equal. rewrite <- !list_fmap_compose.
  apply list_fmap_ext. by intros _ [rq w] _.
Qed.

Lemma credential_with_defaults (b : cfenv.Service) (key : string) :
  credential (with_defaults b) key = credential b key.
Proof.
  unfold credential at 1. unfold cfenv.CredentialString, with_defaults. simpl.
  rewrite !lookup_insert. repeat case_decide; subst; reflexivity.
Qed.

Lemma run_with_defaults_step (t : thread) (sh0 : shared) (r : run) :
  step_thread t sh0 (run_with_defaults r)
  = ((step_thread t sh0 r).1, run_with_defaults (step_thread t sh0 r).2).
Proof.
  destruct r as [rq w p d e res pr ch oc uc uw c g u k].
  destruct t; simpl;
    unfold Backup_step, upload_step, copy_step, dump_step, return_, defer, run_deferred,
      run_with_defaults, export_credentials, object_path; simpl;
    rewrite ?credential_with_defaults.
  - destruct p; simpl; break_match; reflexivity.
  - destruct c; simpl; break_match; reflexivity.
  - destruct k; simpl; break_match; reflexivity.
  - destruct pr; reflexivity.
Qed.

Lemma init_with_defaults now env calls :
  init now env ((fun call => (request_with_defaults call.1, call.2)) <$> calls)
  = map_runs run_with_defaults (init now env calls).
Proof.
  unfold init, map_runs. simpl. f_equal. rewrite <- !list_fmap_compose.
  apply list_fmap_ext. by intros _ [rq w] _.
Qed.

Lemma map_runs_result (f : run -> run) (s : system) (i : nat) :
  (forall r, result (f r) = result r) ->
  result <$> runs (map_runs f s) !! i = result <$> runs s !! i.
Proof.
  intros Hf. unfold map_runs. simpl. rewrite list_lookup_fmap.
  destruct (runs s !! i); simpl; by rewrite ?Hf.
Qed.

(** ** The command line *)

Lemma dump_command_cases (database : string) :
  dump_command database =
    if decide (database = "")
    then ["pg_dumpall"; "-c"; "--no-password"]
    else ["pg_dump"; database; "-C"; "-c"; "--no-password"].
Proof.
  unfold dump_command. destruct database as [|a rest]; [reflexivity|].
  rewrite decide_False by discriminate.
  assert ((0 <? Z.of_nat (String.length (String a rest))) = true) as ->; [|reflexivity].
  apply Z.ltb_lt. cbn [String.length]. lia.
Qed.


(** ** The claims *)

(** C1 (as amended): when the dump has exited with an error and the
    context has not exceeded its deadline at the moment [cmd.Wait()]
    returns, Backup returns the DumpFailed error whose text is
    "postgres dump: " followed by the text of the process's error; the
    captured standard error, trimmed of its trailing CR and LF bytes, is
    written to the error log and is no part of the returned error. *)
Theorem Backup_dump_failed (s : system) (i : nat) (r : run) (e : error) (sched : list event) :
  runs s !! i = Some r ->
  pc r = L96_Wait -> proc r = Exited -> Wait_err (world r) = Some e ->
  Err (ctx (req r)) (clock (sh s)) <> Some context_DeadlineExceeded ->
  result <$> runs (exec (Step i Main :: sched) s) !! i
    = Some (Some (DumpFailed (errorString ("postgres dump: " +:+ Error e))))
  /\ log_Errorln (TrimRight (errBuf (world r)) CRLF)
       ∈ logs (sh (exec (Step i Main :: sched) s))
  /\ (exists dropped,
        errBuf (world r) = TrimRight (errBuf (world r)) CRLF +:+ dropped
        /\ all_in CRLF dropped = true)
  /\ (forall a, last_byte (TrimRight (errBuf (world r)) CRLF) = Some a ->
        a <> CR /\ a <> LF).
Proof.
  intros Hr Hpc Hp He Hctx. split; [|split; [|split]].
  - rewrite (Wait_err_result s i r e sched Hr Hpc Hp He). by rewrite decide_False.
  - rewrite exec_cons. destruct (exec_logs sched (step s (Step i Main))) as [new ->].
    destruct (step_same s i Main r Hr) as [-> _]. simpl.
    rewrite (Backup_step_Wait_err _ _ e Hpc Hp He), decide_False by done. simpl.
    set_solver.
  - apply TrimRight_split.
  - intros a Ha. apply ContainsByte_CRLF. by eapply TrimRight_last.
Qed.

Lemma Backup_dump_failed_witness :
  let s := exec dump_exited (init 0 ∅ [(orders_request, dump_fails)]) in
  let r := run_of s 0 in
  let e := errorString "exit status 1" in
  result <$> runs (exec (Step 0 Main :: replicate 4 (Step 0 Main)) s) !! 0%nat
    = Some (Some (DumpFailed (errorString ("postgres dump: " +:+ Error e))))
  /\ log_Errorln (TrimRight (errBuf (world r)) CRLF)
       ∈ logs (sh (exec (Step 0 Main :: replicate 4 (Step 0 Main)) s))
  /\ (exists dropped,
        errBuf (world r) = TrimRight (errBuf (world r)) CRLF +:+ dropped
        /\ all_in CRLF dropped = true)
  /\ (forall a, last_byte (TrimRight (errBuf (world r)) CRLF) = Some a ->
        a <> CR /\ a <> LF).
Proof.
  refine (Backup_dump_failed
            (exec dump_exited (init 0 ∅ [(orders_request, dump_fails)])) 0%nat
            (run_of (exec dump_exited (init 0 ∅ [(orders_request, dump_fails)])) 0)
            (errorString "exit status 1") (replicate 4 (Step 0 Main)) _ _ _ _ _);
    try (vm_compute; reflexivity).
  vm_compute. discriminate.
Defined.

(** C1 as stated fails: pg_dump exits with status 1 having written
    "connection refused" and a line feed to standard error, well before
    the deadline; the error Backup returns reads "postgres dump: exit
    status 1" and holds nothing of the standard-error text, which went to
    the log. *)
Lemma Backup_error_omits_stderr :
  let s := exec failing_schedule (init 0 ∅ [(orders_request, dump_fails)]) in
  pc (run_of s 0) = Done
  /\ Err (ctx orders_request) (clock (sh s)) = None
  /\ TrimRight (errBuf dump_fails) CRLF = "connection refused"
  /\ (returned <$> result (run_of s 0))
     = Some (Some (errorString "postgres dump: exit status 1"))
  /\ Contains "postgres dump: exit status 1" (TrimRight (errBuf dump_fails) CRLF) = false
  /\ log_Errorln "connection refused" ∈ logs (sh s).
Proof.
  cbv zeta. repeat split; try (vm_compute; reflexivity).
  assert (logs (sh (exec failing_schedule (init 0 ∅ [(orders_request, dump_fails)])))
          = [log_Debugf "executing postgres backup command: pg_dump orders -C -c --no-password";
             log_Errorln "connection refused"]) as -> by (vm_compute; reflexivity).
  set_unfold; tauto.
Qed.

(** C2 (as amended): on the success path Backup passes line 106 only when
    the wait group lets it: if the chain goroutine had registered itself
    when the call reached line 106, the chain has finished by the time the
    call is past it.  When the dump exits with an error Backup does not
    wait: its own next five steps end the call whatever the chain is
    doing.  And whenever [cmd.Wait()] reports an error the result is the
    process-level one (DeadlineExceeded or DumpFailed), never what the
    upload reported. *)
Theorem Backup_waits_on_success_only now env calls before (i : nat) (r : run) :
  runs (exec before (init now env calls)) !! i = Some r ->
  (pc r = L106_Wait -> registered (chain r) = true ->
   forall after r',
     runs (exec after (exec before (init now env calls))) !! i = Some r' ->
     pc r' <> L106_Wait -> chain r' = C_Exited)
  /\ (forall e, pc r = L96_Wait -> proc r = Exited -> Wait_err (world r) = Some e ->
        pc <$> runs (exec (replicate 5 (Step i Main)) (exec before (init now env calls))) !! i
        = Some Done)
  /\ (forall e o, StdoutPipe_err (world r) = None -> Start_err (world r) = None ->
        Wait_err (world r) = Some e -> result r = Some o ->
        o = DeadlineExceeded (errorString "postgres dump: timeout: context deadline exceeded")
        \/ o = DumpFailed (errorString ("postgres dump: " +:+ Error e))).
Proof.
  set (s := exec before (init now env calls)). intros Hr.
  pose proof (reachable_wf now env calls before i r Hr) as Hwf.
  split; [|split].
  - intros Hpc Hreg after r' Hr' Hpc'.
    destruct (exec_preserves
                (fun _ r0 => wf_run r0
                             /\ ((pc r0 = L106_Wait /\ registered (chain r0) = true)
                                 \/ (pc r0 <> L106_Wait /\ chain r0 = C_Exited)))
                (fun t sh0 r0 => wait_group_stable t sh0 r0) (fun _ _ _ H => H)
                after s i r Hr) as (r2 & Hr2 & _ & Hcase); [by auto|].
    rewrite Hr2 in Hr'. injection Hr' as <-.
    destruct Hcase as [[? _]|[_ ?]]; done.
  - intros e Hpc Hp He.
    change (replicate 5 (Step i Main)) with (Step i Main :: replicate 4 (Step i Main)).
    rewrite exec_cons. destruct (step_same s i Main r Hr) as [_ Hr1].
    assert (Hwf1 : wf_run (step_thread Main (sh s) r).2) by by apply step_thread_wf.
    destruct (return_completes _ i _ Hr1 (proj1 Hwf1)) as (r' & -> & Hdone & _).
    + simpl. rewrite (Backup_step_Wait_err _ _ e Hpc Hp He). by case_decide.
    + simpl. by rewrite Hdone.
  - intros e o Hpipe Hstart He Ho.
    destruct Hwf as (Hm & _ & _ & Hres). unfold main_inv in Hm. unfold result_inv in Hres.
    assert (Hinv : outcome_inv (world r) o).
    { destruct (pc r); destruct_and?; try congruence; by apply Hres. }
    unfold outcome_inv in Hinv.
    destruct o as [e1|e1|e1|e1|e1].
    + congruence.
    + destruct Hinv; congruence.
    + left. destruct Hinv as (_ & _ & _ & ->). reflexivity.
    + right. destruct Hinv as (_ & _ & e2 & He2 & ->). unfold Errorf. congruence.
    + destruct Hinv as (_ & _ & Hnone & _). congruence.
Qed.

Lemma Backup_waits_on_success_only_witness :
  let s := exec at_line_106 (init 0 ∅ [(orders_request, dump_succeeds)]) in
  chain (run_of (exec past_line_106 s) 0) = C_Exited.
Proof.
  refine (proj1 (Backup_waits_on_success_only 0 ∅ [(orders_request, dump_succeeds)]
                   at_line_106 0%nat
                   (run_of (exec at_line_106
                              (init 0 ∅ [(orders_request, dump_succeeds)])) 0) _)
            _ _ past_line_106
            (run_of (exec past_line_106
                       (exec at_line_106 (init 0 ∅ [(orders_request, dump_succeeds)]))) 0)
            _ _); try (vm_compute; reflexivity).
  vm_compute. discriminate.
Defined.

(** The call of the witness is held at line 106 while the upload is in
    progress, and returns after it. *)
Example held_at_line_106 :
  let s := exec at_line_106 (init 0 ∅ [(orders_request, dump_succeeds)]) in
  (pc (run_of s 0), chain (run_of s 0)) = (L106_Wait, C90_Uploading)
  /\ (pc (run_of (exec [Step 0 Main; Step 0 Chain; Step 0 Main] s) 0),
      chain (run_of (exec [Step 0 Main; Step 0 Chain; Step 0 Main] s) 0))
     = (L106_Wait, C75_Done)
  /\ (pc (run_of (exec past_line_106 s) 0), chain (run_of (exec past_line_106 s) 0),
      result (run_of (exec past_line_106 s) 0))
     = (Returning, C_Exited, Some (Finished None)).
Proof. cbv zeta. repeat split; vm_compute; reflexivity. Qed.

(** C2 as stated fails: the dump exits with an error while the upload is
    in progress; Backup returns while the chain goroutine is still inside
    the upload call, whose context the deferred [uploadCancel] has just
    canceled. *)
Lemma Backup_returns_before_chain_finished :
  let s := exec failing_schedule (init 0 ∅ [(orders_request, dump_fails)]) in
  pc (run_of s 0) = Done
  /\ result (run_of s 0) = Some (DumpFailed (errorString "postgres dump: exit status 1"))
  /\ chain (run_of s 0) = C90_Uploading
  /\ chain (run_of s 0) <> C_Exited
  /\ uploadWait (run_of s 0) = 1
  /\ uploadCtx_done (run_of s 0) = true.
Proof. cbv zeta. repeat split; try (vm_compute; reflexivity). vm_compute. discriminate. Qed.

(** C3 (as amended): Backup writes the connection parameters into the host
    process's own environment.  While a call holds the mutex and has passed
    line 37, PGUSER, PGPASSWORD, PGHOST and PGPORT of the host environment
    are that call's credentials, and the dump process it starts inherits
    them together with the command line built from its binding. *)
Theorem Backup_exports_to_host_environment now env calls sched (i : nat) (r : run) :
  runs (exec sched (init now env calls)) !! i = Some r ->
  (holds r = true -> pc r <> L28_Setenv ->
   exported (binding (req r)) (environ (sh (exec sched (init now env calls)))))
  /\ (forall argv envp, child r = Some (argv, envp) ->
        argv = dump_command (credential (binding (req r)) "database")
        /\ exported (binding (req r)) envp).
Proof. apply reachable_env. Qed.

Lemma Backup_exports_to_host_environment_witness :
  let s := exec (until_wait 0) (init 0 ∅ [(orders_request, dump_succeeds)]) in
  exported (binding (req (run_of s 0))) (environ (sh s)).
Proof.
  refine (proj1 (Backup_exports_to_host_environment 0 ∅ [(orders_request, dump_succeeds)]
                   (until_wait 0) 0%nat
                   (run_of (exec (until_wait 0)
                              (init 0 ∅ [(orders_request, dump_succeeds)])) 0) _) _ _).
  - vm_compute; reflexivity.
  - vm_compute; reflexivity.
  - vm_compute. discriminate.
Defined.

(** C3 as stated fails: after a complete, successful call the host
    environment, empty before, holds the password of the binding. *)
Lemma Backup_leaves_credentials_in_host_environment :
  let s0 := init 0 ∅ [(orders_request, dump_succeeds)] in
  let s := exec successful_schedule s0 in
  (pc <$> runs s !! 0%nat) = Some Done
  /\ (result <$> runs s !! 0%nat) = Some (Some (Finished None))
  /\ environ (sh s0) !! "PGPASSWORD" = None
  /\ environ (sh s) !! "PGPASSWORD" = Some "s3cret"
  /\ environ (sh s) <> environ (sh s0).
Proof.
  assert (H : environ (sh (exec successful_schedule
                             (init 0 ∅ [(orders_request, dump_succeeds)])))
              !! "PGPASSWORD" = Some "s3cret") by (vm_compute; reflexivity).
  cbv zeta. repeat split; try (vm_compute; reflexivity).
  intros Heq. rewrite Heq in H. discriminate H.
Qed.

(** A second call whose password holds a NUL byte cannot export it: the
    failed [Setenv] is ignored and its dump inherits the password the
    first call left in the host environment. *)
Example stale_password_is_inherited :
  let s := exec (successful_schedule ++ until_wait 1)
             (init 0 ∅ [(orders_request, dump_succeeds); (nul_request, dump_succeeds)]) in
  credential (binding (req (run_of s 1))) "password" = String NUL "pw"
  /\ ((fun c => c.2 !! "PGPASSWORD") <$> child (run_of s 1)) = Some (Some "s3cret")
  /\ ((fun c => c.2 !! "PGUSER") <$> child (run_of s 1)) = Some (Some "carol").
Proof. cbv zeta. repeat split; vm_compute; reflexivity. Qed.

(** C4: when the dump has exited with an error and the context had
    exceeded its deadline at or before that, whatever happens until
    [cmd.Wait()] returns, Backup returns the DeadlineExceeded error
    "postgres dump: timeout: context deadline exceeded", whatever standard
    error holds.  In general the result of a failed dump is DeadlineExceeded
    if [ctx.Err()] is the deadline error when [cmd.Wait()] returns and
    DumpFailed if it is not. *)
Theorem Backup_deadline_exceeded (s : system) (i : nat) (r : run) (e : error) :
  runs s !! i = Some r ->
  pc r = L96_Wait -> proc r = Exited -> Wait_err (world r) = Some e ->
  (forall t_exit, t_exit <= clock (sh s) ->
     Err (ctx (req r)) t_exit = Some context_DeadlineExceeded ->
     forall before after,
       result <$> runs (exec (before ++ Step i Main :: after) s) !! i
       = Some (Some (DeadlineExceeded
                       (errorString "postgres dump: timeout: context deadline exceeded"))))
  /\ (forall after,
        result <$> runs (exec (Step i Main :: after) s) !! i
        = Some (Some
            (if decide (Err (ctx (req r)) (clock (sh s)) = Some context_DeadlineExceeded)
             then DeadlineExceeded
                    (errorString "postgres dump: timeout: context deadline exceeded")
             else DumpFailed (errorString ("postgres dump: " +:+ Error e))))).
Proof.
  intros Hr Hpc Hp He. split; [|intros after; by apply Wait_err_result].
  intros t_exit Hle Hctx before after.
  set (o := DeadlineExceeded
              (errorString "postgres dump: timeout: context deadline exceeded")).
  assert (Hret : forall sh1 r1, t_exit <= clock sh1 -> req r1 = req r ->
                   world r1 = world r -> pc r1 = L96_Wait -> proc r1 = Exited ->
                   result (Backup_step sh1 r1).2 = Some o
                   /\ pc (Backup_step sh1 r1).2 = Returning).
  { intros sh1 r1 Ht Hq Hw Hpc1 Hp1.
    rewrite (Backup_step_Wait_err sh1 r1 e Hpc1 Hp1) by congruence.
    rewrite decide_True; [done|]. rewrite Hq. by eapply Err_monotone. }
  destruct (exec_preserves
              (fun now r0 =>
                 t_exit <= now /\ req r0 = req r /\ world r0 = world r
                 /\ ((pc r0 = L96_Wait /\ proc r0 = Exited)
                     \/ ((pc r0 = Returning \/ pc r0 = Done) /\ result r0 = Some o)))
              (fun t sh0 r0 => waiting_stable t_exit (req r) (world r) o t sh0 r0 Hret)
              (fun now d r0 H => ltac:(destruct H as (? & ? & ? & ?);
                                       repeat split; try done; lia))
              before s i r Hr) as (r1 & Hr1 & Ht1 & Hq1 & Hw1 & Hcase).
  { repeat split; auto. }
  rewrite exec_app, exec_cons.
  destruct (step_same _ i Main r1 Hr1) as [_ Hr2].
  destruct Hcase as [[Hpc1 Hp1]|Hdone].
  - destruct (Hret _ r1 Ht1 Hq1 Hw1 Hpc1 Hp1) as [Ho Hpc2].
    eapply exec_result_stable; [exact Hr2|by left|exact Ho].
  - destruct (result_stable o Main (sh (exec before s)) r1 Hdone) as [Hpc2 Ho].
    eapply exec_result_stable; [exact Hr2|exact Hpc2|exact Ho].
Qed.

Lemma Backup_deadline_exceeded_witness :
  let s := exec deadline_passed (init 0 ∅ [(orders_request, dump_killed)]) in
  result <$> runs (exec ([Tick 3; Step 0 Chain] ++ Step 0 Main :: replicate 4 (Step 0 Main)) s)
               !! 0%nat
  = Some (Some (DeadlineExceeded
                  (errorString "postgres dump: timeout: context deadline exceeded"))).
Proof.
  refine (proj1 (Backup_deadline_exceeded
                   (exec deadline_passed (init 0 ∅ [(orders_request, dump_killed)])) 0%nat
                   (run_of (exec deadline_passed
                              (init 0 ∅ [(orders_request, dump_killed)])) 0)
                   (errorString "signal: killed") _ _ _ _)
            100 _ _ [Tick 3; Step 0 Chain] (replicate 4 (Step 0 Main)));
    try (vm_compute; reflexivity).
  vm_compute. discriminate.
Defined.

(** The deadline of 100 passes, the dump is killed at 150, and the call
    returns the timeout error although standard error is not empty. *)
Example timeout_example :
  let s := exec timeout_schedule (init 0 ∅ [(orders_request, dump_killed)]) in
  pc (run_of s 0) = Done
  /\ (returned <$> result (run_of s 0))
     = Some (Some (errorString "postgres dump: timeout: context deadline exceeded"))
  /\ logs (sh s)
     = [log_Debugf "executing postgres backup command: pg_dump orders -C -c --no-password"].
Proof. cbv zeta. repeat split; vm_compute; reflexivity. Qed.

(** C5: however many calls of Backup run concurrently, at most one dump
    process is running at any instant; the mutex is locked exactly while
    one call is between its Lock and its deferred Unlock; and a call that
    has executed any of its return statements (pipe-creation failure,
    invocation failure, deadline expiry, dump failure, or line 107) ends
    within four steps of its own with the mutex released. *)
Theorem Backup_serialized now env calls sched :
  let s := exec sched (init now env calls) in
  (active_dumps s <= 1)%nat
  /\ (forall i j, holder s i = true -> holder s j = true -> i = j)
  /\ (pgMutex (sh s) = true <-> exists i, holder s i = true)
  /\ (forall i r, runs s !! i = Some r -> pc r = Done -> holder s i = false)
  /\ (forall i r o, runs s !! i = Some r -> result r = Some o ->
        exists r', runs (exec (replicate 4 (Step i Main)) s) !! i = Some r'
                   /\ pc r' = Done /\ result r' = Some o
                   /\ holder (exec (replicate 4 (Step i Main)) s) i = false).
Proof.
  intros s. destruct (reachable_mutex now env calls sched) as [Huniq Hiff].
  fold s in Huniq, Hiff.
  assert (Hwf : forall i r, runs s !! i = Some r -> wf_run r)
    by (intros i r; apply reachable_wf).
  split; [|split; [exact Huniq|split; [exact Hiff|split]]].
  - apply filter_at_most_one. intros i j x y Hi Hj Hx Hy.
    apply Huniq; unfold holder; rewrite ?Hi, ?Hj;
      apply running_holds; try done; by eapply Hwf.
  - intros i r Hr Hpc. unfold holder. rewrite Hr.
    destruct (Hwf i r Hr) as [Hm _]. unfold main_inv in Hm. rewrite Hpc in Hm.
    unfold holds. by destruct Hm as [-> _].
  - intros i r o Hr Ho. destruct (Hwf i r Hr) as [Hm _].
    destruct (return_completes s i r Hr Hm) as (r' & Hr' & Hpc & Hres & Hh);
      [congruence|].
    exists r'. unfold holder. rewrite Hr'. repeat split; congruence.
Qed.

Lemma Backup_serialized_witness :
  (active_dumps (exec two_calls_schedule
                   (init 0 ∅ [(orders_request, dump_succeeds);
                              (instance_request, dump_succeeds)])) <= 1)%nat.
Proof.
  exact (proj1 (Backup_serialized 0 ∅ [(orders_request, dump_succeeds);
                                        (instance_request, dump_succeeds)]
                  two_calls_schedule)).
Defined.

(** The five ways a call can end, each run to its end: the mutex is free
    afterwards. *)
Example every_return_unlocks :
  let ended (w : World) (sched : list event) :=
    let s := exec sched (init 0 ∅ [(orders_request, w)]) in
    (pc (run_of s 0), returned <$> result (run_of s 0), pgMutex (sh s)) in
  ended pipe_fails (replicate 5 (Step 0 Main))
  = (Done, Some (Some (errorString "exec: Stdout already set")), false)
  /\ ended start_fails (replicate 7 (Step 0 Main))
     = (Done, Some (Some (errorString "exec: pg_dump: executable file not found in $PATH")),
        false)
  /\ ended dump_fails failing_schedule
     = (Done, Some (Some (errorString "postgres dump: exit status 1")), false)
  /\ ended dump_killed timeout_schedule
     = (Done, Some (Some (errorString "postgres dump: timeout: context deadline exceeded")),
        false)
  /\ ended dump_succeeds successful_schedule = (Done, Some None, false).
Proof. cbv zeta. repeat split; vm_compute; reflexivity. Qed.

(** While the first call is dumping, the second one is held at line 25. *)
Example second_call_is_held :
  let s := exec (until_wait 0 ++ [Step 1 Main; Step 1 Main])
             (init 0 ∅ [(orders_request, dump_succeeds); (instance_request, dump_succeeds)]) in
  (proc (run_of s 0), pc (run_of s 1), pgMutex (sh s)) = (Running, L25_Lock, true).
Proof. vm_compute; reflexivity. Qed.

(** C6: the only call of the upload operation a run ever makes is for the
    object path [Label/Name/filename] of its binding and file name, with
    size -1; a run whose chain has finished has made exactly that call. *)
Theorem Backup_object_path now env calls sched (i : nat) (r : run) :
  runs (exec sched (init now env calls)) !! i = Some r ->
  (forall u, u ∈ uploads r ->
     objectPath u = cfenv.Label (binding (req r)) +:+ "/" +:+ cfenv.Name (binding (req r))
                    +:+ "/" +:+ filename (req r)
     /\ size u = -1)
  /\ (length (uploads r) <= 1)%nat
  /\ (chain r = C_Exited ->
      uploads r =
        [{| objectPath := cfenv.Label (binding (req r)) +:+ "/"
                          +:+ cfenv.Name (binding (req r)) +:+ "/" +:+ filename (req r);
            size := -1 |}]).
Proof.
  intros Hr. destruct (reachable_wf now env calls sched i r Hr) as (_ & Hc & _).
  unfold chain_inv in Hc.
  assert (Hu : uploads r = [] \/ uploads r = [the_upload (req r)]).
  { destruct (chain r); destruct_and?; auto. }
  split; [|split].
  - intros u Hin. destruct Hu as [Hu|Hu]; rewrite Hu in Hin.
    + by apply elem_of_nil in Hin.
    + apply list_elem_of_singleton in Hin. by rewrite Hin.
  - destruct Hu as [-> | ->]; simpl; lia.
  - intros Hx. rewrite Hx in Hc. by destruct_and?.
Qed.

Lemma Backup_object_path_witness :
  let r := run_of (exec successful_schedule
                     (init 0 ∅ [(orders_request, dump_succeeds)])) 0 in
  (forall u, u ∈ uploads r ->
     objectPath u = cfenv.Label (binding (req r)) +:+ "/" +:+ cfenv.Name (binding (req r))
                    +:+ "/" +:+ filename (req r)
     /\ size u = -1)
  /\ (length (uploads r) <= 1)%nat
  /\ (chain r = C_Exited ->
      uploads r =
        [{| objectPath := cfenv.Label (binding (req r)) +:+ "/"
                          +:+ cfenv.Name (binding (req r)) +:+ "/" +:+ filename (req r);
            size := -1 |}]).
Proof.
  refine (Backup_object_path 0 ∅ [(orders_request, dump_succeeds)]
            successful_schedule 0%nat
            (run_of (exec successful_schedule
                       (init 0 ∅ [(orders_request, dump_succeeds)])) 0) _).
  vm_compute; reflexivity.
Defined.

(** The scenario of the specification: the call returns nil and the one
    upload it made went to svc/instance1/backup.sql.gz. *)
Example successful_run_uploads :
  let s := exec successful_schedule (init 0 ∅ [(orders_request, dump_succeeds)]) in
  (result <$> runs s !! 0%nat) = Some (Some (Finished None))
  /\ (uploads <$> runs s !! 0%nat)
     = Some [{| objectPath := "svc/instance1/backup.sql.gz"; size := -1 |}].
Proof. split; vm_compute; reflexivity. Qed.

(** C7 (as amended): the dump command is [pg_dump <database> -C -c
    --no-password] when the binding has a non-empty database name and
    [pg_dumpall -c --no-password] otherwise, and this is the command line
    of the process that gets started.  Both carry -c (clean) and
    --no-password; -C (create) goes with pg_dump only; the code adds no
    other flag, none for verbose output in particular. *)
Theorem Backup_dump_command now env calls sched (i : nat) (r : run) argv :
  runs (exec sched (init now env calls)) !! i = Some r ->
  fst <$> child r = Some argv ->
  argv = (if decide (credential (binding (req r)) "database" = "")
          then ["pg_dumpall"; "-c"; "--no-password"]
          else ["pg_dump"; credential (binding (req r)) "database";
                "-C"; "-c"; "--no-password"])
  /\ "-c" ∈ argv /\ "--no-password" ∈ argv
  /\ (credential (binding (req r)) "database" <> "" -> "-C" ∈ argv)
  /\ (credential (binding (req r)) "database" = "" ->
      ("-C" ∉ argv) /\ requests_verbose argv = false).
Proof.
  intros Hr Hch.
  destruct (reachable_env now env calls sched i r Hr) as [_ Hchild].
  destruct (child r) as [[argv' envp]|] eqn:Hc; [|discriminate].
  injection Hch as <-. destruct (Hchild argv' envp eq_refl) as [-> _].
  rewrite dump_command_cases.
  destruct (decide (credential (binding (req r)) "database" = "")) as [Hd|Hd].
  - split; [done|]. split; [set_unfold; tauto|]. split; [set_unfold; tauto|].
    split; [done|]. intros _. split; [|reflexivity].
    intros Hin. set_unfold. destruct_or?; discriminate.
  - split; [done|]. split; [set_unfold; tauto|]. split; [set_unfold; tauto|].
    split; [intros _; set_unfold; tauto|done].
Qed.

Lemma Backup_dump_command_witness :
  let s := exec (until_wait 0) (init 0 ∅ [(orders_request, dump_succeeds)]) in
  let argv := ["pg_dump"; "orders"; "-C"; "-c"; "--no-password"] in
  argv = (if decide (credential (binding (req (run_of s 0))) "database" = "")
          then ["pg_dumpall"; "-c"; "--no-password"]
          else ["pg_dump"; credential (binding (req (run_of s 0))) "database";
                "-C"; "-c"; "--no-password"])
  /\ "-c" ∈ argv /\ "--no-password" ∈ argv
  /\ (credential (binding (req (run_of s 0))) "database" <> "" -> "-C" ∈ argv)
  /\ (credential (binding (req (run_of s 0))) "database" = "" ->
      ("-C" ∉ argv) /\ requests_verbose argv = false).
Proof.
  refine (Backup_dump_command 0 ∅ [(orders_request, dump_succeeds)] (until_wait 0) 0%nat
            (run_of (exec (until_wait 0) (init 0 ∅ [(orders_request, dump_succeeds)])) 0)
            _ _ _); vm_compute; reflexivity.
Defined.

(** C7 as stated fails: neither command line asks for verbose output. *)
Lemma dump_command_not_verbose :
  requests_verbose (dump_command "orders") = false
  /\ requests_verbose (dump_command "") = false
  /\ dump_command "orders" = ["pg_dump"; "orders"; "-C"; "-c"; "--no-password"]
  /\ dump_command "" = ["pg_dumpall"; "-c"; "--no-password"].
Proof. repeat split. Qed.

(** C8: the encoder is created once, by the chain goroutine on lines
    79-82.  From that step on its Name is the file name of the call and
    its ModTime is the clock reading of that very step. *)
Theorem Backup_gzip_metadata now env calls before after (i : nat) (r r' : run) :
  runs (exec before (init now env calls)) !! i = Some r ->
  chain r = C79_Gzip ->
  runs (exec (Step i Chain :: after) (exec before (init now env calls))) !! i = Some r' ->
  gw r = None
  /\ gw r' = Some {| gz_Name := filename (req r);
                     gz_ModTime := clock (sh (exec before (init now env calls))) |}.
Proof.
  set (s := exec before (init now env calls)). intros Hr Hc Hr'.
  pose proof (reachable_wf now env calls before i r Hr) as Hwf.
  split.
  { destruct Hwf as (_ & Hci & _). unfold chain_inv in Hci. rewrite Hc in Hci.
    by destruct_and?. }
  rewrite exec_cons in Hr'.
  destruct (step_same s i Chain r Hr) as [Hs Hr1].
  set (g := {| gz_Name := filename (req r); gz_ModTime := clock (sh s) |}).
  destruct (exec_preserves (fun _ r0 => wf_run r0 /\ gw r0 = Some g)
              (fun t sh0 r0 => gw_stable g t sh0 r0) (fun _ _ _ H => H)
              after (step s (Step i Chain)) i _ Hr1) as (r2 & Hr2 & _ & Hg).
  - split; [by apply step_thread_wf|].
    simpl. unfold upload_step. by rewrite Hc.
  - fold s in Hr'. rewrite Hr2 in Hr'. by injection Hr' as <-.
Qed.

Lemma Backup_gzip_metadata_witness :
  let s := exec gzip_before (init 0 ∅ [(orders_request, dump_succeeds)]) in
  gw (run_of s 0) = None
  /\ gw (run_of (exec (Step 0 Chain :: gzip_after) s) 0)
     = Some {| gz_Name := filename (req (run_of s 0)); gz_ModTime := clock (sh s) |}.
Proof.
  refine (Backup_gzip_metadata 0 ∅ [(orders_request, dump_succeeds)]
            gzip_before gzip_after 0%nat
            (run_of (exec gzip_before (init 0 ∅ [(orders_request, dump_succeeds)])) 0)
            (run_of (exec (Step 0 Chain :: gzip_after)
                       (exec gzip_before (init 0 ∅ [(orders_request, dump_succeeds)]))) 0)
            _ _ _); vm_compute; reflexivity.
Defined.

(** Seven ticks after the call started the encoder is set up; later ticks
    do not change its time stamp. *)
Example gzip_metadata_example :
  gw (run_of (exec (gzip_before ++ Step 0 Chain :: gzip_after)
                (init 0 ∅ [(orders_request, dump_succeeds)])) 0)
  = Some {| gz_Name := "backup.sql.gz"; gz_ModTime := 7 |}.
Proof. vm_compute; reflexivity. Qed.

(** C9: what [io.Copy] returns has no influence on a call: with any other
    answer of the copy, every schedule leads to the same state, the same
    log and the same results.  A non-nil error returned on line 107 is
    one the upload call returned. *)
Theorem Backup_discards_copy_error now env calls sched (copy_result : Z * option error) :
  let calls' := (fun call => (call.1, set_Copy_result copy_result call.2)) <$> calls in
  exec sched (init now env calls')
  = map_runs (with_Copy_result copy_result) (exec sched (init now env calls))
  /\ logs (sh (exec sched (init now env calls')))
     = logs (sh (exec sched (init now env calls)))
  /\ (forall i,
        result <$> runs (exec sched (init now env calls')) !! i
        = result <$> runs (exec sched (init now env calls)) !! i)
  /\ (forall i r e,
        runs (exec sched (init now env calls)) !! i = Some r ->
        result r = Some (Finished (Some e)) ->
        exists canceled, UploadWithContext_err (world r) canceled = Some e).
Proof.
  intros calls'.
  assert (Heq : exec sched (init now env calls')
                = map_runs (with_Copy_result copy_result) (exec sched (init now env calls))).
  { unfold calls'. rewrite init_with_Copy_result.
    apply exec_map. apply with_Copy_result_step. }
  split; [exact Heq|]. split; [by rewrite Heq|]. split.
  - intros i. rewrite Heq. by apply map_runs_result.
  - intros i r e Hr Hres.
    destruct (reachable_wf now env calls sched i r Hr) as (Hm & _ & _ & Hri).
    unfold main_inv in Hm. unfold result_inv in Hri.
    assert (Hinv : outcome_inv (world r) (Finished (Some e))).
    { destruct (pc r); destruct_and?; try congruence; by apply Hri. }
    destruct Hinv as (_ & _ & _ & [Hnone|[canceled Hc]]); [discriminate|].
    by exists canceled.
Qed.

Lemma Backup_discards_copy_error_witness :
  result <$> runs (exec successful_schedule (init 0 ∅ [(orders_request, copy_fails)])) !! 0%nat
  = result <$> runs (exec successful_schedule
                       (init 0 ∅ [(orders_request, dump_succeeds)])) !! 0%nat.
Proof.
  exact (proj1 (proj2 (proj2
           (Backup_discards_copy_error 0 ∅ [(orders_request, dump_succeeds)]
              successful_schedule
              (4096, Some (errorString "read |0: file already closed"))))) 0%nat).
Defined.

(** Copying breaks off with an error; the call returns nil all the same
    and nothing about the copy is logged. *)
Example copy_error_example :
  let s := exec successful_schedule (init 0 ∅ [(orders_request, copy_fails)]) in
  result (run_of s 0) = Some (Finished None)
  /\ logs (sh s)
     = [log_Debugf "executing postgres backup command: pg_dump orders -C -c --no-password"].
Proof. cbv zeta. split; vm_compute; reflexivity. Qed.

(** C10: a credential that is missing from the binding, or is not a
    string, is looked up as the empty string and the failed lookup is
    dropped: a call behaves, under every schedule, exactly as with the
    binding in which each of host, port, database, username and password
    is present (a missing one as the empty string).  Every error a call
    returns comes from creating the pipe, starting the dump, waiting for
    it, or the upload. *)
Theorem Backup_tolerates_missing_credentials now env calls sched :
  let calls' := (fun call => (request_with_defaults call.1, call.2)) <$> calls in
  (forall b key, (forall v, cfenv.Credentials b !! key <> Some (cfenv.VString v)) ->
     cfenv.CredentialString b key = ("", false) /\ credential b key = "")
  /\ exec sched (init now env calls')
     = map_runs run_with_defaults (exec sched (init now env calls))
  /\ (forall i,
        result <$> runs (exec sched (init now env calls')) !! i
        = result <$> runs (exec sched (init now env calls)) !! i)
  /\ (forall i r o,
        runs (exec sched (init now env calls)) !! i = Some r -> result r = Some o ->
        outcome_inv (world r) o).
Proof.
  intros calls'.
  assert (Heq : exec sched (init now env calls')
                = map_runs run_with_defaults (exec sched (init now env calls))).
  { unfold calls'. rewrite init_with_defaults. apply exec_map. apply run_with_defaults_step. }
  split; [|split; [exact Heq|split]].
  - intros b key Hmiss. unfold credential, cfenv.CredentialString.
    destruct (cfenv.Credentials b !! key) as [[v| | |]|] eqn:Hk; try done.
    by destruct (Hmiss v).
  - intros i. rewrite Heq. by apply map_runs_result.
  - intros i r o Hr Hres.
    destruct (reachable_wf now env calls sched i r Hr) as (Hm & _ & _ & Hri).
    unfold main_inv in Hm. unfold result_inv in Hri.
    destruct (pc r); destruct_and?; try congruence; by apply Hri.
Qed.

Lemma Backup_tolerates_missing_credentials_witness :
  result <$> runs (exec successful_schedule
                     (init 0 ∅ [(request_with_defaults bare_request, dump_succeeds)])) !! 0%nat
  = result <$> runs (exec successful_schedule
                       (init 0 ∅ [(bare_request, dump_succeeds)])) !! 0%nat.
Proof.
  exact (proj1 (proj2 (proj2
           (Backup_tolerates_missing_credentials 0 ∅ [(bare_request, dump_succeeds)]
              successful_schedule))) 0%nat).
Defined.

(** A binding without any credential: the call runs pg_dumpall with the
    four variables set to the empty string and returns nil. *)
Example bare_binding_example :
  let s := exec successful_schedule (init 0 ∅ [(bare_request, dump_succeeds)]) in
  result (run_of s 0) = Some (Finished None)
  /\ (fst <$> child (run_of s 0)) = Some ["pg_dumpall"; "-c"; "--no-password"]
  /\ ((fun var => environ (sh s) !! var) <$> ["PGUSER"; "PGPASSWORD"; "PGHOST"; "PGPORT"])
     = [Some ""; Some ""; Some ""; Some ""].
Proof. cbv zeta. repeat split; vm_compute; reflexivity. Qed.

(** ** More about a single run *)

Ltac unfold_steps :=
  unfold Backup_step, upload_step, copy_step, dump_step, return_, defer, run_deferred;
  simpl.

Ltac inv_close :=
  simpl in *; intuition (subst; simplify_eq; try congruence; eauto).

Lemma new_run_wf' call : wf_run' (new_run call).
Proof.
  split; [apply new_run_wf|]. split; [|split; [|split]].
  - intros [?|[?|?]]; done.
  - by split.
  - exact I.
  - by intros e.
Qed.

Lemma step_thread_started (t : thread) (sh0 : shared) (r : run) :
  result_inv r -> started_inv r -> started_inv (step_thread t sh0 r).2.
Proof.
  destruct r as [rq w p d e res pr ch oc uc uw c g u k].
  unfold result_inv, started_inv. simpl. intros Hr Hst.
  destruct t; simpl; unfold_steps.
  - destruct p; simpl in *; break_match; inv_close.
  - destruct c; simpl in *; break_match; inv_close.
  - destruct k; simpl in *; break_match; inv_close.
  - destruct pr; inv_close.
Qed.

Lemma step_thread_cleanup (t : thread) (sh0 : shared) (r : run) :
  main_inv r -> cleanup_inv r -> cleanup_inv (step_thread t sh0 r).2.
Proof.
  destruct r as [rq w p d e res pr ch oc uc uw c g u k].
  unfold main_inv, cleanup_inv. simpl. intros Hm Hcl.
  destruct t; simpl; unfold_steps.
  - destruct p; simpl in *; break_match; simpl in *;
      destruct_and?; subst; simplify_eq;
      try (split; [intros; try congruence|intros; try congruence]);
      try (destruct_or?; simplify_eq);
      set_unfold; try tauto; try congruence; auto.
    all: intuition congruence.
  - destruct c; simpl in *; break_match; inv_close.
  - destruct k; simpl in *; break_match; inv_close.
  - destruct pr; inv_close.
Qed.

Lemma step_thread_upload (t : thread) (sh0 : shared) (r : run) :
  main_inv r -> spawn_inv r -> cleanup_inv r -> upload_inv r ->
  upload_inv (step_thread t sh0 r).2.
Proof.
  destruct r as [rq w p d e res pr ch oc uc uw c g u k].
  unfold main_inv, spawn_inv, cleanup_inv, upload_inv. simpl. intros Hm Hs Hcl Hup.
  destruct t; simpl; unfold_steps.
  - destruct p; simpl in *; subst; simpl in *; break_match; simpl in *;
      try exact I; try tauto; try (destruct Hup as [?|[? ?]]; [by left|by right]).
  - destruct c; simpl in *; try exact I; try assumption.
    destruct uc; [right|by left]. split; [|done].
    destruct p; destruct_and?; try discriminate; done.
  - destruct k; simpl in *; break_match; assumption.
  - destruct pr; assumption.
Qed.

Lemma step_thread_finished (t : thread) (sh0 : shared) (r : run) :
  main_inv r -> chain_inv r -> upload_inv r -> finished_inv r ->
  finished_inv (step_thread t sh0 r).2.
Proof.
  destruct r as [rq w p d e res pr ch oc uc uw c g u k].
  unfold main_inv, chain_inv, upload_inv, finished_inv. simpl. intros Hm Hc Hup Hfin.
  destruct t; simpl; unfold_steps.
  - destruct p; simpl in *; break_match; simpl in *; try assumption;
      try (intros ? [=]; fail).
    + intros e' [= <-]. destruct c; destruct_and?; subst; auto;
        (destruct Hup as [?|[? ?]]; [auto|congruence]).
  - destruct c; simpl in *; break_match; assumption.
  - destruct k; simpl in *; break_match; assumption.
  - destruct pr; assumption.
Qed.

Lemma exec_length (sched : list event) (s : system) :
  length (runs (exec sched s)) = length (runs s).
Proof.
  revert s. induction sched as [|e sched IH]; intros s; [done|].
  rewrite exec_cons, IH. destruct e as [d|i t]; simpl; [done|].
  destruct (runs s !! i) as [r|] eqn:Hr; [|done].
  destruct (step_thread t (sh s) r) as [sh' r']. simpl. apply length_insert.
Qed.

Lemma exec_lookup_init now env calls sched (i : nat) (r : run) :
  runs (exec sched (init now env calls)) !! i = Some r ->
  exists call, calls !! i = Some call.
Proof.
  intros Hr. apply lookup_lt_Some in Hr. rewrite exec_length in Hr.
  simpl in Hr. rewrite length_fmap in Hr. by apply lookup_lt_is_Some_2.
Qed.

Lemma step_thread_wf' (t : thread) (sh0 : shared) (r : run) :
  wf_run' r -> wf_run' (step_thread t sh0 r).2.
Proof.
  intros (Hwf & Hst & Hcl & Hup & Hfin).
  pose proof Hwf as (Hm & Hc & Hs & Hr).
  split; [by apply step_thread_wf|]. split; [by apply step_thread_started|].
  split; [by apply step_thread_cleanup|]. split; [by apply step_thread_upload|].
  by apply step_thread_finished.
Qed.

Lemma reachable_wf' now env calls sched (i : nat) (r : run) :
  runs (exec sched (init now env calls)) !! i = Some r -> wf_run' r.
Proof.
  intros Hr. destruct (exec_lookup_init now env calls sched i r Hr) as (call & Hc).
  destruct (exec_preserves (fun _ r0 => wf_run' r0)
              (fun t sh0 r0 => step_thread_wf' t sh0 r0) (fun _ _ _ H => H)
              sched (init now env calls) i (new_run call)) as (r' & Hr' & Hwf).
  - simpl. rewrite list_lookup_fmap. by rewrite Hc.
  - apply new_run_wf'.
  - rewrite Hr' in Hr. by injection Hr as <-.
Qed.

(** ** Further properties of [Backup] *)



(** X2: when the pipe cannot be created or the dump cannot be started,
    Backup returns that error as it is, and nothing else ever happens in
    the call: no process, no goroutine, no encoder and no upload. *)
Theorem Backup_early_failure now env calls sched (i : nat) (r : run) :
  runs (exec sched (init now env calls)) !! i = Some r ->
  StdoutPipe_err (world r) <> None \/ Start_err (world r) <> None ->
  proc r = NotStarted /\ child r = None /\ chain r = C_None /\ copier r = K_None
  /\ gw r = None /\ uploads r = []
  /\ (forall o, result r = Some o ->
        returned o = match StdoutPipe_err (world r) with
                     | Some e => Some e
                     | None => Start_err (world r)
                     end).
Proof.
  intros Hr Hfail. destruct (reachable_wf' now env calls sched i r Hr)
    as ((Hm & Hc & _ & Hres) & Hst & _).
  unfold started_inv in Hst.
  assert (Hp : proc r = NotStarted).
  { destruct (proc r) eqn:Hp; [done| |];
      (destruct Hst as [? ?]; [by left|destruct Hfail; congruence]). }
  assert (Hch : child r = None).
  { destruct (child r) eqn:Hch; [|done].
    destruct Hst as [? ?]; [right; by left|destruct Hfail; congruence]. }
  assert (Hcn : chain r = C_None).
  { destruct (chain r) eqn:Hcn; [done|..];
      (destruct Hst as [? ?]; [right; by right|destruct Hfail; congruence]). }
  unfold chain_inv in Hc. rewrite Hcn in Hc. destruct Hc as (_ & Hg & Hu & _ & Hk).
  repeat (split; [done|]).
  intros o Ho. unfold main_inv in Hm. unfold result_inv in Hres.
  assert (Hinv : outcome_inv (world r) o).
  { destruct (pc r); destruct_and?; try congruence; by apply Hres. }
  unfold outcome_inv in Hinv.
  destruct o as [e1|e1|e1|e1|e1]; simpl.
  - by rewrite Hinv.
  - destruct Hinv as [-> ->]. done.
  - destruct Hinv as (? & ? & _). destruct Hfail; congruence.
  - destruct Hinv as (? & ? & _). destruct Hfail; congruence.
  - destruct Hinv as (? & ? & _). destruct Hfail; congruence.
Qed.

Lemma Backup_early_failure_witness :
  let r := run_of (exec (replicate 7 (Step 0 Main) ++ [Step 0 Chain; Step 0 Dump])
                     (init 0 ∅ [(orders_request, start_fails)])) 0 in
  proc r = NotStarted /\ child r = None /\ chain r = C_None /\ copier r = K_None
  /\ gw r = None /\ uploads r = []
  /\ (forall o, result r = Some o ->
        returned o = match StdoutPipe_err (world r) with
                     | Some e => Some e
                     | None => Start_err (world r)
                     end).
Proof.
  refine (Backup_early_failure 0 ∅ [(orders_request, start_fails)]
            (replicate 7 (Step 0 Main) ++ [Step 0 Chain; Step 0 Dump]) 0%nat
            (run_of (exec (replicate 7 (Step 0 Main) ++ [Step 0 Chain; Step 0 Dump])
                       (init 0 ∅ [(orders_request, start_fails)])) 0) _ _).
  - vm_compute; reflexivity.
  - right. vm_compute. discriminate.
Defined.

(** A call that reached line 106 after its chain goroutine had registered
    returns what the upload, its context not canceled, returned. *)
Lemma upload_result_stable (w : World) (t : thread) (sh0 : shared) (r : run) :
  wf_run' r /\ world r = w
  /\ ((pc r = L106_Wait /\ registered (chain r) = true)
      \/ (pc r = L107_Return /\ chain r = C_Exited
          /\ err r = UploadWithContext_err w false)
      \/ ((pc r = Returning \/ pc r = Done)
          /\ result r = Some (Finished (UploadWithContext_err w false)))) ->
  wf_run' (step_thread t sh0 r).2 /\ world (step_thread t sh0 r).2 = w
  /\ ((pc (step_thread t sh0 r).2 = L106_Wait
       /\ registered (chain (step_thread t sh0 r).2) = true)
      \/ (pc (step_thread t sh0 r).2 = L107_Return
          /\ chain (step_thread t sh0 r).2 = C_Exited
          /\ err (step_thread t sh0 r).2 = UploadWithContext_err w false)
      \/ ((pc (step_thread t sh0 r).2 = Returning \/ pc (step_thread t sh0 r).2 = Done)
          /\ result (step_thread t sh0 r).2
             = Some (Finished (UploadWithContext_err w false)))).
Proof.
  intros (Hwf & Hw & Hcase). split; [by apply step_thread_wf'|].
  split; [by rewrite (proj2 (step_thread_req t sh0 r))|].
  destruct Hcase as [[Hpc Hreg]|[(Hpc & Hch & He)|Hdone]].
  - destruct Hwf as ((Hm & Hc & _) & _ & _ & Hup & _). revert Hm Hc Hup Hw Hpc Hreg.
    destruct r as [rq w0 p d e res pr ch oc uc uw c g u k].
    unfold main_inv, chain_inv, upload_inv. simpl. intros Hm Hc Hup <- -> Hreg.
    destruct t; simpl; unfold_steps.
    + destruct (Z.eqb_spec uw 0) as [->|Hne]; simpl; [|by left].
      right; left. destruct c; simpl in *; destruct_and?; try done; try lia.
      repeat split. destruct Hup as [?|[? _]]; [done|congruence].
    + left. destruct c; simpl in *; break_match; done.
    + left. destruct k; simpl; break_match; done.
    + left. destruct pr; done.
  - revert Hw Hpc Hch He. destruct r as [rq w0 p d e res pr ch oc uc uw c g u k].
    simpl. intros <- -> -> ->.
    destruct t; simpl; unfold_steps.
    + right; right. split; [by left|done].
    + right; left. done.
    + right; left. destruct k; simpl; break_match; done.
    + right; left. destruct pr; done.
  - right; right. by apply result_stable.
Qed.

(** X3: what line 107 returns.  The value returned there is nil or the
    answer the upload gave with its context not canceled, never the answer
    of a canceled upload; and when the chain goroutine had registered by
    the time the call reached line 106, it is exactly the upload's answer:
    nil if the upload succeeded, its error otherwise. *)
Theorem Backup_returns_upload_result now env calls before (i : nat) (r : run) :
  runs (exec before (init now env calls)) !! i = Some r ->
  (forall e, result r = Some (Finished e) ->
     e = None \/ e = UploadWithContext_err (world r) false)
  /\ (pc r = L106_Wait -> registered (chain r) = true ->
      forall after o,
        result <$> runs (exec after (exec before (init now env calls))) !! i
        = Some (Some o) ->
        o = Finished (UploadWithContext_err (world r) false)).
Proof.
  intros Hr. pose proof (reachable_wf' now env calls before i r Hr) as Hwf.
  split; [apply Hwf|].
  intros Hpc Hreg after o Ho.
  destruct (exec_preserves
              (fun _ r0 =>
                 wf_run' r0 /\ world r0 = world r
                 /\ ((pc r0 = L106_Wait /\ registered (chain r0) = true)
                     \/ (pc r0 = L107_Return /\ chain r0 = C_Exited
                         /\ err r0 = UploadWithContext_err (world r) false)
                     \/ ((pc r0 = Returning \/ pc r0 = Done)
                         /\ result r0
                            = Some (Finished (UploadWithContext_err (world r) false)))))
              (fun t sh0 r0 => upload_result_stable (world r) t sh0 r0)
              (fun _ _ _ H => H)
              after _ i r Hr) as (r' & Hr' & _ & _ & Hcase); [by auto|].
  rewrite Hr' in Ho. simpl in Ho. injection Ho as Ho.
  destruct (proj1 (reachable_wf' now env calls (before ++ after) i r'
                     ltac:(by rewrite exec_app))) as (Hm & _).
  unfold main_inv in Hm.
  destruct Hcase as [[Hp _]|[(Hp & _)|[_ Hres]]].
  - rewrite Hp in Hm. destruct_and?; congruence.
  - rewrite Hp in Hm. destruct_and?; congruence.
  - congruence.
Qed.

Lemma Backup_returns_upload_result_witness :
  let s := exec at_line_106 (init 0 ∅ [(orders_request, upload_fails)]) in
  Finished (Some (errorString "AccessDenied"))
  = Finished (UploadWithContext_err (world (run_of s 0)) false).
Proof.
  refine (proj2 (Backup_returns_upload_result 0 ∅ [(orders_request, upload_fails)]
                   at_line_106 0%nat
                   (run_of (exec at_line_106
                              (init 0 ∅ [(orders_request, upload_fails)])) 0) _)
            _ _ past_line_106 (Finished (Some (errorString "AccessDenied"))) _);
    vm_compute; reflexivity.
Defined.

(** The upload is refused; the dump succeeded and the call waited for the
    chain: Backup returns the upload's error. *)
Example upload_error_is_returned :
  let s := exec (at_line_106 ++ past_line_106 ++ replicate 4 (Step 0 Main))
             (init 0 ∅ [(orders_request, upload_fails)]) in
  pc (run_of s 0) = Done
  /\ (returned <$> result (run_of s 0)) = Some (Some (errorString "AccessDenied")).
Proof. cbv zeta. split; vm_compute; reflexivity. Qed.

(** Two steps of a call at line 106 whose chain goroutine has not
    registered. *)
Lemma unregistered_passes (sh1 sh2 : shared) (r : run) :
  chain_inv r -> spawn_inv r -> pc r = L106_Wait -> registered (chain r) = false ->
  uploads (Backup_step sh2 (Backup_step sh1 r).2).2 = []
  /\ pc (Backup_step sh2 (Backup_step sh1 r).2).2 = Returning
  /\ result (Backup_step sh2 (Backup_step sh1 r).2).2 = Some (Finished None).
Proof.
  destruct r as [rq w p d e res pr ch oc uc uw c g u k].
  unfold chain_inv, spawn_inv. simpl. intros Hc Hs -> Hreg.
  destruct c; try discriminate; [done|].
  by destruct Hc as (-> & _ & -> & -> & _).
Qed.

(** X4: line 106 does not hold a call whose chain goroutine has not yet
    run [uploadWait.Add(1)]: the call goes on, returns nil before any
    upload was made, and keeps that result whatever the upload does
    afterwards. *)
Theorem Backup_can_return_before_upload now env calls before (i : nat) (r : run) :
  runs (exec before (init now env calls)) !! i = Some r ->
  pc r = L106_Wait -> registered (chain r) = false ->
  uploads <$> runs (exec [Step i Main; Step i Main] (exec before (init now env calls))) !! i
  = Some []
  /\ (forall after,
        result <$> runs (exec (Step i Main :: Step i Main :: after)
                           (exec before (init now env calls))) !! i
        = Some (Some (Finished None))).
Proof.
  set (s := exec before (init now env calls)). intros Hr Hpc Hreg.
  destruct (reachable_wf now env calls before i r Hr) as (_ & Hc & Hs & _).
  destruct (step_same s i Main r Hr) as [_ Hr1].
  destruct (step_same _ i Main _ Hr1) as [_ Hr2].
  destruct (unregistered_passes (sh s) (sh (step s (Step i Main))) r Hc Hs Hpc Hreg)
    as (Hu & Hp & Hres).
  split.
  - change (exec [Step i Main; Step i Main] s)
      with (step (step s (Step i Main)) (Step i Main)).
    rewrite Hr2. exact (f_equal Some Hu).
  - intros after. rewrite !exec_cons.
    eapply exec_result_stable; [exact Hr2|by left|exact Hres].
Qed.

Lemma Backup_can_return_before_upload_witness :
  let s := exec (until_wait 0 ++ [Step 0 Dump; Step 0 Main])
             (init 0 ∅ [(orders_request, upload_fails)]) in
  uploads <$> runs (exec [Step 0 Main; Step 0 Main] s) !! 0%nat = Some []
  /\ (forall after,
        result <$> runs (exec (Step 0 Main :: Step 0 Main :: after) s) !! 0%nat
        = Some (Some (Finished None))).
Proof.
  refine (Backup_can_return_before_upload 0 ∅ [(orders_request, upload_fails)]
            (until_wait 0 ++ [Step 0 Dump; Step 0 Main]) 0%nat
            (run_of (exec (until_wait 0 ++ [Step 0 Dump; Step 0 Main])
                       (init 0 ∅ [(orders_request, upload_fails)])) 0) _ _ _);
    vm_compute; reflexivity.
Defined.

(** X5: the wait group counts the chain goroutine and nothing else: the
    counter is 1 from [uploadWait.Add(1)] to [uploadWait.Done()] and 0
    otherwise, so it never goes below zero, and line 106 holds the call
    exactly while the chain goroutine is between the two. *)
Theorem Backup_wait_group now env calls sched (i : nat) (r : run) :
  runs (exec sched (init now env calls)) !! i = Some r ->
  uploadWait r = (if in_flight (chain r) then 1 else 0)
  /\ (pc r = L106_Wait ->
      forall sh0, pc (Backup_step sh0 r).2
                  = (if in_flight (chain r) then L106_Wait else L107_Return)).
Proof.
  intros Hr. destruct (reachable_wf now env calls sched i r Hr) as (_ & Hc & _).
  unfold chain_inv in Hc.
  assert (Hw : uploadWait r = (if in_flight (chain r) then 1 else 0)).
  { destruct (chain r); simpl; by destruct_and?. }
  split; [exact Hw|]. intros Hpc sh0. unfold Backup_step. rewrite Hpc, Hw.
  by destruct (in_flight (chain r)).
Qed.

Lemma Backup_wait_group_witness :
  let s := exec at_line_106 (init 0 ∅ [(orders_request, dump_succeeds)]) in
  pc (Backup_step (sh s) (run_of s 0)).2
  = (if in_flight (chain (run_of s 0)) then L106_Wait else L107_Return).
Proof.
  refine (proj2 (Backup_wait_group 0 ∅ [(orders_request, dump_succeeds)] at_line_106 0%nat
                   (run_of (exec at_line_106
                              (init 0 ∅ [(orders_request, dump_succeeds)])) 0) _) _
            (sh (exec at_line_106 (init 0 ∅ [(orders_request, dump_succeeds)]))));
    vm_compute; reflexivity.
Defined.






(** Lines 34-37 leave every other variable alone and unset none. *)
Lemma export_credentials_frame (b : cfenv.Service) (env : gmap string string)
    (name : string) :
  (name ∉ pg_names -> export_credentials b env !! name = env !! name)
  /\ (is_Some (env !! name) -> is_Some (export_credentials b env !! name)).
Proof.
  unfold export_credentials, Setenv, pg_names. simpl.
  split.
  - intros Hn.
    repeat match goal with
           | |- context [ContainsByte ?v NUL] =>
               lazymatch v with
               | credential b _ => destruct (ContainsByte v NUL)
               end
           end; simpl;
      rewrite ?lookup_insert_ne by (intros <-; apply Hn; set_unfold; tauto); done.
  - intros Hs.
    repeat match goal with
           | |- context [ContainsByte ?v NUL] =>
               lazymatch v with
               | credential b _ => destruct (ContainsByte v NUL)
               end
           end; simpl; rewrite ?lookup_insert; repeat case_decide; eauto.
Qed.

Lemma step_environ_frame (s : system) (e : event) (name : string) :
  (name ∉ pg_names -> environ (sh (step s e)) !! name = environ (sh s) !! name)
  /\ (is_Some (environ (sh s) !! name) -> is_Some (environ (sh (step s e)) !! name)).
Proof.
  destruct e as [d|i t]; [done|].
  destruct (runs s !! i) as [r|] eqn:Hr; [|unfold step; by rewrite Hr].
  destruct (step_same s i t r Hr) as [-> _]. simpl.
  destruct (step_thread_shared t (sh s) r) as (_ & [->|(_ & _ & ->)] & _); [done|].
  apply export_credentials_frame.
Qed.

Lemma exec_environ_frame (sched : list event) (s : system) (name : string) :
  (name ∉ pg_names -> environ (sh (exec sched s)) !! name = environ (sh s) !! name)
  /\ (is_Some (environ (sh s) !! name) -> is_Some (environ (sh (exec sched s)) !! name)).
Proof.
  revert s. induction sched as [|e sched IH]; intros s; [done|].
  rewrite exec_cons. destruct (IH (step s e)) as [IH1 IH2].
  destruct (step_environ_frame s e name) as [H1 H2].
  split; [intros Hn; by rewrite IH1, H1|auto].
Qed.

(** The environment of a dump is the host environment of the moment it
    was started. *)
Lemma step_thread_child (t : thread) (sh0 : shared) (r : run) :
  child (step_thread t sh0 r).2 = child r
  \/ exists argv, child (step_thread t sh0 r).2 = Some (argv, environ sh0).
Proof.
  destruct r as [rq w p d e res pr ch oc uc uw c g u k].
  destruct t; simpl; unfold_steps.
  - destruct p; simpl; break_match; simpl; eauto.
  - destruct c; simpl; break_match; simpl; eauto.
  - destruct k; simpl; break_match; simpl; eauto.
  - destruct pr; simpl; eauto.
Qed.

(** X7: the only variables of the host environment Backup ever writes
    are PGUSER, PGPASSWORD, PGHOST and PGPORT.  Under every schedule of any
    number of calls every other variable keeps the value it had, no
    variable is ever unset, and every dump is started with those other
    variables as the host had them. *)
Theorem Backup_environment_frame now env calls sched (name : string) :
  (is_Some (env !! name) ->
   is_Some (environ (sh (exec sched (init now env calls))) !! name))
  /\ (name ∉ pg_names ->
      environ (sh (exec sched (init now env calls))) !! name = env !! name
      /\ forall i r argv envp,
           runs (exec sched (init now env calls)) !! i = Some r ->
           child r = Some (argv, envp) -> envp !! name = env !! name).
Proof.
  split; [apply (exec_environ_frame sched (init now env calls) name)|].
  intros Hn. split; [by apply (exec_environ_frame sched (init now env calls) name)|].
  induction sched as [|e sched IH] using rev_ind; intros i r argv envp.
  - intros (c & _ & ->)%init_lookup. done.
  - rewrite exec_snoc. set (s := exec sched (init now env calls)) in *.
    destruct e as [d|j t]; [apply IH|].
    destruct (runs s !! j) as [rj|] eqn:Hj; [|unfold step; rewrite Hj; apply IH].
    destruct (decide (j = i)) as [->|Hne]; [|rewrite step_other by done; apply IH].
    destruct (step_same s i t rj Hj) as [_ ->]. intros [= <-] Hch.
    destruct (step_thread_child t (sh s) rj) as [Hsame|[argv' Hnew]].
    + rewrite Hsame in Hch. by eapply IH.
    + rewrite Hnew in Hch. injection Hch as _ <-.
      by apply (exec_environ_frame sched (init now env calls) name).
Qed.

Lemma Backup_environment_frame_witness :
  environ (sh (exec successful_schedule (init 0 host_env [(orders_request, dump_succeeds)])))
    !! "PATH" = host_env !! "PATH"
  /\ forall i r argv envp,
       runs (exec successful_schedule
               (init 0 host_env [(orders_request, dump_succeeds)])) !! i = Some r ->
       child r = Some (argv, envp) -> envp !! "PATH" = host_env !! "PATH".
Proof.
  refine (proj2 (Backup_environment_frame 0 host_env [(orders_request, dump_succeeds)]
                   successful_schedule "PATH") _).
  unfold pg_names. set_unfold. intros [H|[H|[H|[H|[]]]]]; discriminate H.
Defined.

Section log_predicate.

(** [J l r]: a property of a run and of the log that survives more logging. *)
Variable J : list log_call -> run -> Prop.
Hypothesis J_step :
  forall t sh0 r,
    J (logs sh0) r -> J (logs (step_thread t sh0 r).1) (step_thread t sh0 r).2.
Hypothesis J_more : forall l new r, J l r -> J (l ++ new) r.

Lemma step_preserves_logs (s : system) (e : event) :
  (forall i r, runs s !! i = Some r -> J (logs (sh s)) r) ->
  forall i r, runs (step s e) !! i = Some r -> J (logs (sh (step s e))) r.
Proof using J_step J_more.
  intros HJ i r'. destruct e as [d|j t]; [apply HJ|].
  destruct (runs s !! j) as [rj|] eqn:Hj; [|unfold step; rewrite Hj; apply HJ].
  destruct (step_same s j t rj Hj) as [Hs Hj']. rewrite Hs. simpl.
  intros [(-> & <- & _)|(Hne & Hi)]%list_lookup_insert_Some.
  - apply J_step. by apply (HJ i).
  - destruct (step_thread_shared t (sh s) rj) as (_ & _ & new & ->).
    apply J_more. by apply (HJ i).
Qed.

Lemma exec_preserves_logs (sched : list event) (s : system) :
  (forall i r, runs s !! i = Some r -> J (logs (sh s)) r) ->
  forall i r, runs (exec sched s) !! i = Some r -> J (logs (sh (exec sched s))) r.
Proof using J_step J_more.
  revert s. induction sched as [|e sched IH]; intros s HJ; [exact HJ|].
  rewrite exec_cons. apply IH. by apply step_preserves_logs.
Qed.

End log_predicate.

Lemma log_inv_more (l new : list log_call) (r : run) :
  log_inv l r -> log_inv (l ++ new) r.
Proof.
  unfold log_inv. intros (H1 & H2 & H3 & H4 & H5).
  repeat split; intros; apply elem_of_app; left; eauto.
Qed.

Lemma step_thread_log (t : thread) (sh0 : shared) (r : run) :
  log_inv (logs sh0) r ->
  log_inv (logs (step_thread t sh0 r).1) (step_thread t sh0 r).2.
Proof.
  destruct r as [rq w p d e res pr ch oc uc uw c g u k].
  unfold log_inv, command_message, pipe_message, start_message, upload_message.
  simpl. intros (H1 & H2 & H3 & H4 & H5).
  destruct t; simpl; unfold_steps.
  - destruct p; simpl; break_match; simpl;
      repeat split; try done; intros; simplify_eq;
      rewrite ?elem_of_app, ?list_elem_of_singleton; eauto 6;
      try (destruct_or?; discriminate).
  - destruct c; simpl; break_match; simpl;
      repeat split; try done; intros; simplify_eq;
      rewrite ?elem_of_app, ?list_elem_of_singleton; eauto 6;
      try (destruct_or?; discriminate).
  - destruct k; simpl; break_match; simpl; repeat split; eauto.
  - destruct pr; simpl; repeat split; eauto.
Qed.

(** X8: what the log holds.  From line 51 on the log holds the command
    line; a call that returned the pipe error, the start error or the
    dump failure has logged it before (the standard-error text in the last
    case), and an error of the upload is logged as soon as line 90 has
    stored it. *)
Theorem Backup_logs_failures now env calls sched (i : nat) (r : run) :
  runs (exec sched (init now env calls)) !! i = Some r ->
  (pc r <> L25_Lock -> pc r <> L28_Setenv -> pc r <> L40_Command ->
   log_Debugf ("executing postgres backup command: "
               +:+ Join (dump_command (credential (binding (req r)) "database")) " ")
     ∈ logs (sh (exec sched (init now env calls))))
  /\ (forall e, result r = Some (PipeError e) ->
        log_Errorf ("could not get stdout pipe for postgres dump: " +:+ Error e)
          ∈ logs (sh (exec sched (init now env calls))))
  /\ (forall e, result r = Some (InvocationError e) ->
        log_Errorf ("could not run postgres dump: " +:+ Error e)
          ∈ logs (sh (exec sched (init now env calls))))
  /\ (forall e, result r = Some (DumpFailed e) ->
        log_Errorln (TrimRight (errBuf (world r)) CRLF)
          ∈ logs (sh (exec sched (init now env calls))))
  /\ (forall e, chain r = C75_Done \/ chain r = C_Exited -> err r = Some e ->
        log_Errorf ("could not upload service backup [" +:+ cfenv.Name (binding (req r))
                    +:+ "] to S3: " +:+ Error e)
          ∈ logs (sh (exec sched (init now env calls)))).
Proof.
  intros Hr.
  refine (exec_preserves_logs log_inv step_thread_log log_inv_more sched
            (init now env calls) _ i r Hr).
  intros j rj (c & _ & ->)%init_lookup. repeat split; done.
Qed.

Lemma Backup_logs_failures_witness :
  let s := exec (at_line_106 ++ past_line_106) (init 0 ∅ [(orders_request, upload_fails)]) in
  log_Errorf ("could not upload service backup ["
              +:+ cfenv.Name (binding (req (run_of s 0)))
              +:+ "] to S3: " +:+ Error (errorString "AccessDenied")) ∈ logs (sh s).
Proof.
  refine (proj2 (proj2 (proj2 (proj2
            (Backup_logs_failures 0 ∅ [(orders_request, upload_fails)]
               (at_line_106 ++ past_line_106) 0%nat
               (run_of (exec (at_line_106 ++ past_line_106)
                          (init 0 ∅ [(orders_request, upload_fails)])) 0) _))))
            (errorString "AccessDenied") _ _).
  - vm_compute; reflexivity.
  - right. vm_compute; reflexivity.
  - vm_compute; reflexivity.
Defined.

(** The upload of the example is refused and the log says so. *)
Example upload_error_is_logged :
  logs (sh (exec (at_line_106 ++ past_line_106)
              (init 0 ∅ [(orders_request, upload_fails)])))
  = [log_Debugf "executing postgres backup command: pg_dump orders -C -c --no-password";
     log_Errorf "could not upload service backup [instance1] to S3: AccessDenied"].
Proof. vm_compute; reflexivity. Qed.






Lemma Err_canceled (c : Context) (k now : Z) :
  canceled_at c = Some k -> k <= now ->
  (forall d, deadline c = Some d -> k < d) ->
  Err c now = Some context_Canceled.
Proof.
  unfold Err. intros -> Hk Hd. destruct (deadline c) as [d|].
  - specialize (Hd d eq_refl).
    destruct (Z.leb_spec d k); [lia|]. destruct (Z.leb_spec k now); [done|lia].
  - destruct (Z.leb_spec k now); [done|lia].
Qed.

(** X10: a cancellation is no timeout.  When the caller cancels the
    context before its deadline and the dump then exits with an error,
    Backup reports a dump failure carrying the process's error, even if
    the deadline has passed by the time [cmd.Wait()] returns. *)
Theorem Backup_cancellation_is_no_timeout (s : system) (i : nat) (r : run) (k : Z)
    (e : error) (after : list event) :
  runs s !! i = Some r ->
  pc r = L96_Wait -> proc r = Exited -> Wait_err (world r) = Some e ->
  canceled_at (ctx (req r)) = Some k -> k <= clock (sh s) ->
  (forall d, deadline (ctx (req r)) = Some d -> k < d) ->
  result <$> runs (exec (Step i Main :: after) s) !! i
  = Some (Some (DumpFailed (errorString ("postgres dump: " +:+ Error e)))).
Proof.
  intros Hr Hpc Hp He Hk Hle Hd.
  pose proof (Err_canceled _ _ _ Hk Hle Hd) as Herr.
  rewrite (Wait_err_result s i r e after Hr Hpc Hp He).
  rewrite decide_False; [done|]. rewrite Herr. discriminate.
Qed.

Lemma Backup_cancellation_is_no_timeout_witness :
  let s := exec deadline_passed (init 0 ∅ [(canceled_request, dump_killed)]) in
  result <$> runs (exec (Step 0 Main :: replicate 4 (Step 0 Main)) s) !! 0%nat
  = Some (Some (DumpFailed
                  (errorString ("postgres dump: " +:+ Error (errorString "signal: killed"))))).
Proof.
  refine (Backup_cancellation_is_no_timeout
            (exec deadline_passed (init 0 ∅ [(canceled_request, dump_killed)])) 0%nat
            (run_of (exec deadline_passed
                       (init 0 ∅ [(canceled_request, dump_killed)])) 0)
            40 (errorString "signal: killed") (replicate 4 (Step 0 Main))
            _ _ _ _ _ _ _); try (vm_compute; reflexivity).
  - vm_compute. discriminate.
  - intros d Hd. vm_compute in Hd. injection Hd as <-. reflexivity.
Defined.
